(** * Crossword CSP solver (generate.py): shallow embedding and verification

    The development follows [src/generate.py], class [CrosswordCreator]:
    node consistency, [revise], [ac3], the assignment-level checks, the two
    ordering heuristics and the backtracking search.

    Python sets and dicts are stdpp [gset]s and [gmap]s.  A [for] loop over a
    set runs over [elements]; the general theorems rely only on this
    enumeration being duplicate free and exhaustive, and the worked puzzles
    at the end are built so that the heuristics force the order of the search.
    Exceptions ([IndexError] of a string subscript, [KeyError] of a dict
    subscript) are values of an error monad. *)

From stdpp Require Import gmap strings list fin_maps sorting.
From Equations Require Import Equations.
From Stdlib Require Import Ascii.

Local Set Warnings "-clear-no-such-hyp".

(** ** Exceptions *)

Inductive exn := IndexError | KeyError.

Inductive result (A : Type) :=
| Ok (a : A)
| Raise (e : exn).
Arguments Ok {A} a.
Arguments Raise {A} e.

#[global] Instance result_ret : MRet result := fun A a => Ok a.
#[global] Instance result_bind : MBind result := fun A B f m =>
  match m with
  | Ok a => f a
  | Raise e => Raise e
  end.

(** [w[k]] on a Python string. *)
Definition subscript (w : string) (k : nat) : result ascii :=
  match String.get k w with
  | Some c => Ok c
  | None => Raise IndexError
  end.

(** [d[k]] on a Python dict. *)
Definition getitem `{Countable K} {V} (d : gmap K V) (k : K) : result V :=
  match d !! k with
  | Some v => Ok v
  | None => Raise KeyError
  end.

(** [for a in l: acc = body(acc, a)] where the body may raise. *)
Fixpoint for_each {A B} (body : B -> A -> result B) (acc : B) (l : list A)
  : result B :=
  match l with
  | [] => Ok acc
  | a :: l' => acc' ← body acc a; for_each body acc' l'
  end.

(** A loop that leaves with [return False] at the first element failing
    [test], and falls through (here: [True]) otherwise. *)
Fixpoint all_pass {A} (test : A -> result bool) (l : list A) : result bool :=
  match l with
  | [] => Ok true
  | a :: l' => b ← test a; if b : bool then all_pass test l' else Ok false
  end.

(** [list.sort(key=...)]: a stable sort, written as insertion from the
    right; [lt] is the strict order of the keys. *)
Section stable_sort.
Context {A : Type} (lt : A -> A -> bool).

Fixpoint insert_stable (x : A) (l : list A) : list A :=
  match l with
  | [] => [x]
  | y :: l' => if lt y x then y :: insert_stable x l' else x :: y :: l'
  end.

Definition sort_stable (l : list A) : list A := foldr insert_stable [] l.
End stable_sort.

(** A [while] loop is iterated from its body, which either hands on the
    next state or leaves the loop with the value returned. *)
Inductive loop_step (S R : Type) :=
| Continue (s : S)
| Break (r : R).
Arguments Continue {S R} s.
Arguments Break {S R} r.

(** ** The puzzle graph *)

Inductive Direction := ACROSS | DOWN.

(** Modelled from the spec: the class [Variable] of crossword.py is not part
    of the sources; a slot is a direction, a start cell and a length, and two
    slots are equal when all of these agree. *)
Record Slot := mkSlot {
  slot_i : nat;
  slot_j : nat;
  slot_direction : Direction;
  slot_length : nat
}.

#[global] Instance Direction_eq_dec : EqDecision Direction.
Proof. solve_decision. Defined.

#[global] Instance Slot_eq_dec : EqDecision Slot.
Proof. solve_decision. Defined.

Definition Slot_encode (s : Slot) : nat * nat * bool * nat :=
  (slot_i s, slot_j s,
   match slot_direction s with ACROSS => false | DOWN => true end,
   slot_length s).

Definition Slot_decode (t : nat * nat * bool * nat) : Slot :=
  let '(i, j, d, n) := t in mkSlot i j (if d then DOWN else ACROSS) n.

#[global] Instance Slot_countable : Countable Slot.
Proof.
  apply (inj_countable' Slot_encode Slot_decode).
  intros [i j [] n]; reflexivity.
Defined.

(** Modelled from the spec: the class [Crossword] of crossword.py is not part
    of the sources.  The engine reads its set of slots, the overlap of an
    ordered pair of slots (the offsets of the shared cell in each, or
    nothing) and the vocabulary. *)
Record Crossword := mkCrossword {
  variables : gset Slot;
  overlaps : Slot -> Slot -> option (nat * nat);
  words : gset string
}.

(** Modelled from the spec: [neighbors] of crossword.py is not part of the
    sources; it returns, for a slot, the set of all other slots it overlaps
    with. *)
Definition neighbors (cw : Crossword) (var : Slot) : gset Slot :=
  filter (fun v => v ≠ var ∧ is_Some (overlaps cw v var)) (variables cw).

(** The puzzle-graph invariant of the spec: overlap records are symmetric. *)
Definition overlaps_symmetric (cw : Crossword) : Prop :=
  ∀ x y, overlaps cw y x = prod_swap <$> overlaps cw x y.

Abbreviation Domains := (gmap Slot (gset string)).
Abbreviation Assignment := (gmap Slot string).
Abbreviation Arc := (Slot * Slot)%type.

(** [CrosswordCreator.__init__]: every slot starts with a copy of the whole
    vocabulary. *)
Definition init_domains (cw : Crossword) : Domains :=
  gset_to_gmap (words cw) (variables cw).

(** What a call of [backtrack] does: it returns the dict it was given
    (complete), or [None] with the dict left in some state, or it raises.
    [OutOfDepth] marks a recursion cut off by the depth bound of the
    embedding. *)
Inductive outcome :=
| Found (result : Assignment)
| Failed (left : Assignment)
| Raised (e : exn)
| OutOfDepth.

Section CrosswordCreator.
Context (cw : Crossword).

(** ** Node consistency *)

Definition enforce_node_consistency (domains : Domains) : result Domains :=
  for_each (fun (domains : Domains) var =>
      words_of_var ← getitem domains var;
      let domain :=
        foldl (fun (domain : gset string) word =>
                 if decide (String.length word ≠ slot_length var)
                 then domain ∖ {[word]}
                 else domain)
              words_of_var (elements words_of_var) in
      Ok (<[var := domain]> domains))
    domains (elements (dom domains)).

(** ** Arc consistency: revise *)

(** The inner loop of [revise]: does [i] find a partner in the words [js]?
    The scan leaves at the first match. *)
Fixpoint has_partner (v1 v2 : nat) (i : string) (js : list string)
  : result bool :=
  match js with
  | [] => Ok false
  | j :: js' =>
      if decide (i ≠ j) then
        ci ← subscript i v1;
        cj ← subscript j v2;
        if decide (ci = cj) then Ok true else has_partner v1 v2 i js'
      else has_partner v1 v2 i js'
  end.

Definition revise (domains : Domains) (x y : Slot)
  : result (bool * Domains) :=
  match overlaps cw x y with
  | Some (v1, v2) =>
      dx ← getitem domains x;
      remove ← for_each (fun (remove : gset string) i =>
          dy ← getitem domains y;
          found ← has_partner v1 v2 i (elements dy);
          Ok (if found : bool then remove else remove ∪ {[i]}))
        ∅ (elements dx);
      if decide (remove ≠ ∅)
      then Ok (true, <[x := dx ∖ remove]> domains)
      else Ok (false, domains)
  | None => Ok (false, domains)
  end.

(** ** Arc consistency: the worklist loop of ac3 *)

(** The deque [arcs] is kept as the list read from its right end: [pop]
    takes the head, [appendleft] adds behind the last element. *)
Definition initial_arcs : list Arc :=
  v1 ← elements (variables cw);
  v2 ← elements (neighbors cw v1);
  [(v1, v2)].

Definition deque_of (arcs : option (list Arc)) : list Arc :=
  match arcs with
  | None => initial_arcs
  | Some l => reverse l
  end.

(** One pass through the body of [while arcs:]. *)
Definition ac3_iteration (domains : Domains) (arcs : list Arc)
  : loop_step (Domains * list Arc) (result (bool * Domains)) :=
  match arcs with
  | [] => Break (Ok (true, domains))
  | (x, y) :: rest =>
      match revise domains x y with
      | Raise e => Break (Raise e)
      | Ok (true, domains') =>
          match getitem domains' x with
          | Raise e => Break (Raise e)
          | Ok dx =>
              if decide (size dx = 0) then Break (Ok (false, domains'))
              else Continue
                     (domains',
                      rest ++ ((fun z => (z, x)) <$>
                                 elements (neighbors cw x ∖ {[y]})))
          end
      | Ok (false, domains') => Continue (domains', rest)
      end
  end.

(** ** Assignment-level checks *)

Definition assignment_complete (assignment : Assignment) : bool :=
  forallb (fun variable => bool_decide (variable ∈ dom assignment))
          (elements (variables cw)).

Definition consistent (assignment : Assignment) : result bool :=
  all_pass (fun '(x, i) =>
      if decide (slot_length x ≠ String.length i) then Ok false
      else
        all_pass (fun '(y, j) =>
            if decide (x ≠ y) then
              if decide (i = j) then Ok false
              else
                match overlaps cw x y with
                | Some (a, b) =>
                    ci ← subscript i a;
                    cj ← subscript j b;
                    Ok (bool_decide (ci = cj))
                | None => Ok true
                end
            else Ok true)
          (map_to_list assignment))
    (map_to_list assignment).

(** ** Heuristics *)

Context (domains : Domains).

Definition order_domain_values (var : Slot) (assignment : Assignment)
  : result (list string) :=
  let neighbors :=
    foldl (fun (neighbors : gset Slot) variable =>
             if decide (variable ∈ neighbors)
             then neighbors ∖ {[variable]}
             else neighbors)
          (neighbors cw var) (elements (dom assignment)) in
  words_of_var ← getitem domains var;
  result ← for_each (fun result word =>
      ruled_out ← for_each (fun ruled_out neighbor =>
          words_of_neighbor ← getitem domains neighbor;
          for_each (fun ruled_out word2 =>
              match overlaps cw var neighbor with
              | Some (a, b) =>
                  c ← subscript word a;
                  c2 ← subscript word2 b;
                  Ok (if decide (c ≠ c2) then S ruled_out else ruled_out)
              | None => Ok ruled_out
              end)
            ruled_out (elements words_of_neighbor))
        0 (elements neighbors);
      Ok (result ++ [(word, ruled_out)]))
    [] (elements words_of_var);
  Ok (fst <$> sort_stable (fun a b => bool_decide (a.2 < b.2)) result).

(** The sort key [(x[1], -x[2])] of [select_unassigned_variable], compared
    as Python compares tuples. *)
Definition select_key_lt (a b : Slot * nat * nat) : bool :=
  let '(_, a1, a2) := a in
  let '(_, b1, b2) := b in
  bool_decide (a1 < b1 ∨ (a1 = b1 ∧ (- Z.of_nat a2 < - Z.of_nat b2)%Z)).

Definition select_unassigned_variable (assignment : Assignment)
  : result (option Slot) :=
  potential_variables ← for_each (fun potential_variables variable =>
      if decide (variable ∉ dom assignment) then
        words_of_var ← getitem domains variable;
        Ok (potential_variables ++
              [(variable, size words_of_var, size (neighbors cw variable))])
      else Ok potential_variables)
    [] (elements (variables cw));
  match sort_stable select_key_lt potential_variables with
  | (variable, _, _) :: _ => Ok (Some variable)
  | [] => Ok None
  end.

(** ** Backtracking search *)

(** [backtrack] works on one dict, which it changes in place; its outcome
    records what the call returns together with the content the dict is
    left with.  A returned assignment is that same dict.

    [try_values] is the loop [for value in ...] over the candidates of
    [var]; [recurse] is the recursive call.  The binding of [var] is popped
    in the [else] branch of [if self.consistent(assignment)] only. *)
Fixpoint try_values (recurse : Assignment -> outcome) (var : Slot)
    (values : list string) (assignment : Assignment) : outcome :=
  match values with
  | [] => Failed assignment
  | value :: values' =>
      let assignment := <[var := value]> assignment in
      match consistent assignment with
      | Raise e => Raised e
      | Ok true =>
          match recurse assignment with
          | Found result =>
              if decide (result ≠ ∅) then Found result
              else try_values recurse var values' result
          | Failed assignment' => try_values recurse var values' assignment'
          | Raised e => Raised e
          | OutOfDepth => OutOfDepth
          end
      | Ok false => try_values recurse var values' (delete var assignment)
      end
  end.

Fixpoint backtrack (depth : nat) (assignment : Assignment) : outcome :=
  match depth with
  | 0 => OutOfDepth
  | S depth' =>
      if assignment_complete assignment then Found assignment
      else
        match select_unassigned_variable assignment with
        | Raise e => Raised e
        | Ok None => Raised KeyError
        | Ok (Some var) =>
            match order_domain_values var assignment with
            | Raise e => Raised e
            | Ok values => try_values (backtrack depth') var values assignment
            end
        end
  end.
End CrosswordCreator.

(** * Loop lemmas *)

Lemma for_each_snoc {A B} (body : B -> A -> result B) acc l a :
  for_each body acc (l ++ [a]) = (acc' ← for_each body acc l; body acc' a).
Proof.
  revert acc. induction l as [|b l IH]; intros acc; simpl.
  - destruct (body acc a); reflexivity.
  - destruct (body acc b) as [acc'|e]; simpl; [apply IH | reflexivity].
Qed.

(** Loop invariant rule: [P pre acc] relates the accumulator to the elements
    consumed so far. *)
Lemma for_each_invariant {A B} (P : list A -> B -> Prop)
    (body : B -> A -> result B) l acc r :
  for_each body acc l = Ok r ->
  P [] acc ->
  (∀ pre a b b', a ∈ l -> P pre b -> body b a = Ok b' -> P (pre ++ [a]) b') ->
  P l r.
Proof.
  intros Hrun Hinit Hstep.
  induction l as [|a l IH] using rev_ind in r, Hrun, Hstep |- *.
  - simpl in Hrun. by injection Hrun as <-.
  - rewrite for_each_snoc in Hrun.
    destruct (for_each body acc l) as [acc'|e] eqn:Hl; [|done].
    simpl in Hrun. eapply Hstep; [set_solver | | exact Hrun].
    apply IH; [done|]. intros pre b c c' Hb. apply Hstep. set_solver.
Qed.

Lemma for_each_returns {A B} (body : B -> A -> result B) l acc :
  (∀ a b, a ∈ l -> ∃ b', body b a = Ok b') ->
  ∃ r, for_each body acc l = Ok r.
Proof.
  revert acc. induction l as [|a l IH]; intros acc Hbody; simpl; [eauto|].
  destruct (Hbody a acc) as [b' ->]; [set_solver|]. simpl.
  apply IH. intros c b Hc. apply Hbody. set_solver.
Qed.

Lemma getitem_Some `{Countable K} {V} (d : gmap K V) k v :
  d !! k = Some v -> getitem d k = Ok v.
Proof. unfold getitem. by intros ->. Qed.

Lemma getitem_Ok `{Countable K} {V} (d : gmap K V) k v :
  getitem d k = Ok v ↔ d !! k = Some v.
Proof. unfold getitem. destruct (d !! k); split; congruence. Qed.

Lemma subscript_Ok w k c : subscript w k = Ok c ↔ String.get k w = Some c.
Proof. unfold subscript. destruct (String.get k w); split; congruence. Qed.

Lemma bind_Ok {A B} (m : result A) (f : A -> result B) b :
  m ≫= f = Ok b ↔ ∃ a, m = Ok a ∧ f a = Ok b.
Proof.
  destruct m as [a|e]; simpl.
  - split; [eauto|]. by intros (a' & [= <-] & Hf).
  - split; [done|]. by intros (a' & [=] & _).
Qed.

Lemma all_pass_true {A} (test : A -> result bool) l :
  all_pass test l = Ok true ↔ ∀ a, a ∈ l -> test a = Ok true.
Proof.
  induction l as [|a l IH]; simpl.
  - split; [intros _ a Ha; by apply elem_of_nil in Ha | done].
  - destruct (test a) as [[]|e] eqn:Ha; simpl.
    + rewrite IH. split.
      * intros Hl b [->|Hb]%elem_of_cons; auto.
      * intros Hl b Hb. apply Hl. by right.
    + split; [done|]. intros Hl. specialize (Hl a). rewrite Ha in Hl.
      assert (Ok false = Ok true) as [=]. apply Hl. by left.
    + split; [done|]. intros Hl. specialize (Hl a). rewrite Ha in Hl.
      assert (Raise e = Ok true) as [=]. apply Hl. by left.
Qed.

(** * Node consistency *)

Lemma discard_loop_spec (n : nat) (l : list string) (domain : gset string) w :
  w ∈ foldl (fun (domain : gset string) word =>
               if decide (String.length word ≠ n)
               then domain ∖ {[word]} else domain) domain l
  ↔ w ∈ domain ∧ (w ∈ l -> String.length w = n).
Proof.
  revert domain. induction l as [|a l IH]; intros domain; simpl.
  - split; [|tauto]. intros Hw. split; [done|]. by intros ?%elem_of_nil.
  - rewrite IH. destruct (decide (String.length a ≠ n)) as [Hne|Heq].
    + rewrite elem_of_difference, elem_of_singleton, elem_of_cons.
      split.
      * intros [[Hw Hwa] Hl]. split; [done|]. intros [->|Hin]; [done|auto].
      * intros [Hw Hl]. split; [split; [done|]|]; [|auto].
        intros ->. apply Hne. auto.
    + rewrite elem_of_cons. split.
      * intros [Hw Hl]. split; [done|]. intros [->|?]; [|auto].
        destruct (decide (String.length a = n)); [done|contradiction].
      * intros [Hw Hl]. auto.
Qed.

Lemma node_loop_spec (l : list Slot) :
  NoDup l ->
  ∀ domains : Domains, (∀ v, v ∈ l -> v ∈ dom domains) ->
  ∃ domains' : Domains,
    for_each (fun (domains : Domains) var =>
        words_of_var ← getitem domains var;
        let domain :=
          foldl (fun (domain : gset string) word =>
                   if decide (String.length word ≠ slot_length var)
                   then domain ∖ {[word]}
                   else domain)
                words_of_var (elements words_of_var) in
        Ok (<[var := domain]> domains)) domains l = Ok domains' ∧
    ∀ s, domains' !! s =
         if decide (s ∈ l)
         then filter (fun w => String.length w = slot_length s) <$> domains !! s
         else domains !! s.
Proof.
  induction 1 as [|v l Hv Hl IH]; intros domains Hdom; simpl.
  - exists domains. split; [done|]. intros s. done.
  - assert (v ∈ dom domains) as [d Hd]%elem_of_dom by (apply Hdom; set_solver).
    rewrite (getitem_Some _ _ _ Hd). simpl.
    set (d1 := foldl _ d (elements d)).
    destruct (IH (<[v:=d1]> domains)) as (domains' & Hrun & Hlook).
    { intros u Hu. rewrite dom_insert. set_solver. }
    exists domains'. split; [exact Hrun|]. intros s. rewrite Hlook.
    destruct (decide (s = v)) as [->|Hsv].
    + rewrite decide_False by done. rewrite decide_True by set_solver.
      rewrite lookup_insert_eq, Hd. simpl. f_equal.
      apply set_eq. intros w. unfold d1. rewrite discard_loop_spec.
      rewrite elem_of_filter, elem_of_elements. tauto.
    + rewrite lookup_insert_ne by done.
      destruct (decide (s ∈ l)).
      * by rewrite decide_True by set_solver.
      * by rewrite decide_False by set_solver.
Qed.

(** C7. Node consistency: the pass returns, keeps the slots of the domain
    store, and leaves in the domain of each slot exactly the words that were
    there before and have the length of the slot. *)
Theorem enforce_node_consistency_spec (domains : Domains) :
  ∃ domains' : Domains,
    enforce_node_consistency domains = Ok domains' ∧
    dom domains' = dom domains ∧
    ∀ s d, domains !! s = Some d ->
      ∃ d', domains' !! s = Some d' ∧
        ∀ w, w ∈ d' ↔ w ∈ d ∧ String.length w = slot_length s.
Proof.
  destruct (node_loop_spec (elements (dom domains))) with (domains := domains)
    as (domains' & Hrun & Hlook).
  { apply NoDup_elements. }
  { intros v. by rewrite elem_of_elements. }
  exists domains'. split; [exact Hrun|]. split.
  - apply set_eq. intros s. rewrite !elem_of_dom, Hlook.
    destruct (decide (s ∈ elements (dom domains))) as [Hs|Hs].
    + by rewrite fmap_is_Some.
    + done.
  - intros s d Hd. rewrite Hlook, Hd.
    rewrite decide_True by (rewrite elem_of_elements, elem_of_dom; eauto).
    eexists. split; [reflexivity|]. intros w. rewrite elem_of_filter. tauto.
Qed.

(** * Arc consistency: revise *)

(** [i[a] == j[b]], with both subscripts in range. *)
Definition agree (i : string) (a : nat) (j : string) (b : nat) : Prop :=
  ∃ c, String.get a i = Some c ∧ String.get b j = Some c.

(** The word [i] has a partner in the domain of [y]: a different word with
    the same letter in the shared cell. *)
Definition supported (domains : Domains) (y : Slot) (a b : nat) (i : string)
  : Prop :=
  ∃ dy j, domains !! y = Some dy ∧ j ∈ dy ∧ i ≠ j ∧ agree i a j b.

Lemma get_in_range (w : string) (k : nat) :
  k < String.length w -> ∃ c, String.get k w = Some c.
Proof.
  revert k. induction w as [|c w IH]; intros k Hk; simpl in *; [lia|].
  destruct k as [|k]; [eauto|]. apply IH. lia.
Qed.

Section revise_facts.
Context (cw : Crossword).

Lemma has_partner_spec a b i js found :
  has_partner a b i js = Ok found ->
  found = true ↔ ∃ j, j ∈ js ∧ i ≠ j ∧ agree i a j b.
Proof.
  revert found. induction js as [|j js IH]; intros found; simpl.
  - intros [= <-]. split; [done|]. by intros (j & ?%elem_of_nil & _).
  - destruct (decide (i ≠ j)) as [Hij|Hij].
    + intros (ci & Hci%subscript_Ok & Hrun)%bind_Ok.
      apply bind_Ok in Hrun as (cj & Hcj%subscript_Ok & Hrun).
      destruct (decide (ci = cj)) as [->|Hc].
      * injection Hrun as <-. split; [intros _|done].
        exists j. split; [by left|]. split; [done|]. by exists cj.
      * rewrite (IH _ Hrun). split.
        -- intros (j' & Hj' & Hne & Hag). exists j'. split; [by right|done].
        -- intros (j' & [->|Hj']%elem_of_cons & Hne & Hag); [|eauto].
           destruct Hag as (c & Hc1 & Hc2). congruence.
    + intros Hrun. rewrite (IH _ Hrun). split.
      * intros (j' & Hj' & Hne & Hag). exists j'. split; [by right|done].
      * intros (j' & [->|Hj']%elem_of_cons & Hne & Hag); [|eauto].
        contradiction.
Qed.

Lemma has_partner_returns a b i js :
  a < String.length i ->
  (∀ j, j ∈ js -> b < String.length j) ->
  ∃ found, has_partner a b i js = Ok found.
Proof.
  intros [ci Hci]%get_in_range. induction js as [|j js IH]; intros Hjs; simpl.
  - eauto.
  - destruct (decide (i ≠ j)); [|apply IH; intros; apply Hjs; by right].
    destruct (get_in_range j b) as [cj Hcj]; [apply Hjs; by left|].
    apply subscript_Ok in Hci, Hcj. rewrite Hci, Hcj. simpl.
    destruct (decide (ci = cj)); [eauto|].
    apply IH; intros; apply Hjs; by right.
Qed.

(** What the scan of [domains[x]] collects in [remove]. *)
Lemma remove_loop_spec (domains : Domains) y a b (l : list string) remove :
  for_each (fun (remove : gset string) i =>
      dy ← getitem domains y;
      found ← has_partner a b i (elements dy);
      Ok (if found : bool then remove else remove ∪ {[i]}))
    ∅ l = Ok remove ->
  ∀ i, (i ∈ remove -> i ∈ l ∧ ¬ supported domains y a b i) ∧
       (i ∈ l -> i ∉ remove -> supported domains y a b i).
Proof.
  intros Hrun.
  apply (for_each_invariant
           (fun pre (remove : gset string) =>
              ∀ i, (i ∈ remove -> i ∈ pre ∧ ¬ supported domains y a b i) ∧
                   (i ∈ pre -> i ∉ remove -> supported domains y a b i))
           _ _ _ _ Hrun).
  - intros i. split; [|by intros ?%elem_of_nil].
    intros Hi. exfalso. by apply (not_elem_of_empty (C := gset string) i).
  - intros pre i0 rem rem' _ Hinv Hbody.
    apply bind_Ok in Hbody as (dy & Hdy%getitem_Ok & Hbody).
    apply bind_Ok in Hbody as (found & Hfound & [= <-]).
    apply has_partner_spec in Hfound.
    assert (found = true ↔ supported domains y a b i0) as Hsup.
    { rewrite Hfound. unfold supported. split.
      - intros (j & Hj%elem_of_elements & ?). eauto.
      - intros (dy' & j & Hdy' & Hj & Hrest). exists j.
        rewrite elem_of_elements. rewrite Hdy in Hdy'.
        by injection Hdy' as <-. }
    intros i. destruct (Hinv i) as [Hrem Hkeep].
    rewrite elem_of_app, list_elem_of_singleton. destruct found.
    + split; [intros Hi; destruct (Hrem Hi); auto|].
      intros [Hi| ->] Hnot; [auto|]. by apply Hsup.
    + rewrite elem_of_union, elem_of_singleton. split.
      * intros [Hi| ->]; [destruct (Hrem Hi); auto|].
        split; [auto|]. intros Hs. by apply Hsup in Hs.
      * intros [Hi| ->] Hnot; [auto|]. destruct Hnot. auto.
Qed.

Lemma remove_loop_returns (domains : Domains) y dy a b (l : list string) :
  domains !! y = Some dy ->
  (∀ i, i ∈ l -> a < String.length i) ->
  (∀ j, j ∈ dy -> b < String.length j) ->
  ∃ remove,
    for_each (fun (remove : gset string) i =>
        dy ← getitem domains y;
        found ← has_partner a b i (elements dy);
        Ok (if found : bool then remove else remove ∪ {[i]}))
      ∅ l = Ok remove.
Proof.
  intros Hdy Hl Hy. apply for_each_returns. intros i rem Hi.
  rewrite (getitem_Some _ _ _ Hdy). simpl.
  destruct (has_partner_returns a b i (elements dy)) as [found ->];
    [auto | by intros j ?%elem_of_elements; auto |].
  simpl. eauto.
Qed.

(** The shape of every normal return of [revise]. *)
Lemma revise_Ok (domains : Domains) x y revised domains' :
  revise cw domains x y = Ok (revised, domains') ->
  (revised = false ∧ domains' = domains ∧
   (∀ a b dx i, overlaps cw x y = Some (a, b) -> domains !! x = Some dx ->
                i ∈ dx -> supported domains y a b i)) ∨
  (revised = true ∧
   ∃ a b dx (remove : gset string),
     overlaps cw x y = Some (a, b) ∧ domains !! x = Some dx ∧
     remove ≠ ∅ ∧ domains' = <[x := dx ∖ remove]> domains ∧
     ∀ i, (i ∈ remove -> i ∈ dx ∧ ¬ supported domains y a b i) ∧
          (i ∈ dx -> i ∉ remove -> supported domains y a b i)).
Proof.
  unfold revise. destruct (overlaps cw x y) as [[a b]|] eqn:Hov.
  - intros (dx & Hdx%getitem_Ok & Hrun)%bind_Ok.
    apply bind_Ok in Hrun as (remove & Hloop & Hrun).
    pose proof (remove_loop_spec _ _ _ _ _ _ Hloop) as Hrem.
    setoid_rewrite elem_of_elements in Hrem.
    destruct (decide (remove ≠ ∅)) as [Hne|Hemp]; injection Hrun as <- <-.
    + right. split; [done|]. exists a, b, dx, remove. done.
    + left. split; [done|]. split; [done|].
      intros a' b' dx' i [= <- <-] Hdx' Hi.
      rewrite Hdx in Hdx'. injection Hdx' as <-.
      apply Hrem; [done|]. apply dec_stable in Hemp. rewrite Hemp.
      apply not_elem_of_empty.
  - intros [= <- <-]. left. split; [done|]. split; [done|].
    intros a b dx i [=].
Qed.
End revise_facts.

(** C3. Postcondition of [revise(x, y)] for two slots of the domain store.
    Without an overlap it returns [False] and the store as it was.  With the
    overlap [(a, b)] it returns whenever the offsets are in range of the words
    of the two domains, and whenever it returns, the new store differs from
    the old one at most in the domain of [x], which holds exactly the old
    words that have a partner in the domain of [y]; the boolean tells whether
    a word was removed. *)
Theorem revise_spec (cw : Crossword) (domains : Domains) (x y : Slot)
    (dx dy : gset string) :
  domains !! x = Some dx ->
  domains !! y = Some dy ->
  match overlaps cw x y with
  | None => revise cw domains x y = Ok (false, domains)
  | Some (a, b) =>
      ((∀ i, i ∈ dx -> a < String.length i) ->
       (∀ j, j ∈ dy -> b < String.length j) ->
       ∃ r, revise cw domains x y = Ok r) ∧
      ∀ revised domains',
        revise cw domains x y = Ok (revised, domains') ->
        ∃ dx' : gset string,
          domains' = <[x := dx']> domains ∧
          (∀ z, z ≠ x -> domains' !! z = domains !! z) ∧
          (∀ i, i ∈ dx' ↔ i ∈ dx ∧ ∃ j, j ∈ dy ∧ i ≠ j ∧ agree i a j b) ∧
          (revised = true ↔ ∃ i, i ∈ dx ∧ i ∉ dx')
  end.
Proof.
  intros Hdx Hdy. destruct (overlaps cw x y) as [[a b]|] eqn:Hov.
  - split.
    + intros Hx Hy. unfold revise. rewrite Hov, (getitem_Some _ _ _ Hdx). simpl.
      destruct (remove_loop_returns domains y dy a b (elements dx))
        as [remove ->]; [done | by intros i ?%elem_of_elements; auto | done |].
      simpl. destruct (decide (remove ≠ ∅)); eauto.
    + intros revised domains' Hrun.
      assert (∀ i, supported domains y a b i ↔
                   ∃ j, j ∈ dy ∧ i ≠ j ∧ agree i a j b) as Hsup.
      { intros i. unfold supported. split.
        - intros (dy' & j & Hdy' & Hj). rewrite Hdy in Hdy'.
          injection Hdy' as <-. eauto.
        - intros (j & Hj). eauto. }
      apply revise_Ok in Hrun
        as [(-> & -> & Hkeep)|(-> & a' & b' & dx0 & remove & Hov' & Hdx0 &
                               Hne & -> & Hrem)].
      * exists dx. split; [by rewrite insert_id|]. split; [done|]. split.
        -- intros i. rewrite <- Hsup. split; [|tauto]. intros Hi.
           split; [done|]. by apply (Hkeep a b dx).
        -- split; [done|]. intros (i & Hi & Hni). contradiction.
      * rewrite Hov in Hov'. injection Hov' as <- <-.
        rewrite Hdx in Hdx0. injection Hdx0 as <-.
        exists (dx ∖ remove). split; [done|]. split.
        { intros z Hz. by rewrite lookup_insert_ne. }
        split.
        -- intros i. rewrite <- Hsup, elem_of_difference.
           destruct (Hrem i) as [Hin Hout]. split.
           ++ intros [Hi Hni]. auto.
           ++ intros [Hi Hs]. split; [done|]. intros Hr.
              by destruct (Hin Hr).
        -- split; [intros _|done].
           apply set_choose_L in Hne as [i Hi]. exists i.
           destruct (Hrem i) as [Hin _]. destruct (Hin Hi) as [Hidx _].
           split; [done|]. rewrite elem_of_difference. tauto.
  - unfold revise. by rewrite Hov.
Qed.

(** * Termination of the worklist loop *)

(** Total number of candidate words in the store. *)
Definition total_size (domains : Domains) : nat :=
  map_fold (fun _ (d : gset string) n => size d + n) 0 domains.

(** The loop measure: the store weighs more than any batch of arcs that one
    revision can put back on the worklist. *)
Definition ac3_measure (cw : Crossword) (st : Domains * list Arc) : nat :=
  total_size st.1 * S (size (variables cw)) + length st.2.

Lemma total_size_insert (domains : Domains) x (d : gset string) :
  domains !! x = None ->
  total_size (<[x := d]> domains) = size d + total_size domains.
Proof.
  intros Hx. unfold total_size.
  rewrite map_fold_insert_L; [done | intros; lia | done].
Qed.

Lemma total_size_shrink (domains : Domains) x (dx dx' : gset string) :
  domains !! x = Some dx ->
  size dx' < size dx ->
  total_size (<[x := dx']> domains) < total_size domains.
Proof.
  intros Hx Hlt.
  rewrite <- (insert_delete_id domains x dx) at 2 by done.
  rewrite <- (insert_delete_eq domains x dx').
  rewrite !total_size_insert by apply lookup_delete_eq. lia.
Qed.

Lemma revise_measure (cw : Crossword) (domains : Domains) x y revised domains' :
  revise cw domains x y = Ok (revised, domains') ->
  if revised then total_size domains' < total_size domains
  else domains' = domains.
Proof.
  intros [(-> & -> & _)|(-> & a & b & dx & remove & _ & Hdx & Hne & -> & Hrem)]
    %revise_Ok; [done|].
  apply (total_size_shrink _ _ dx); [done|].
  apply set_choose_L in Hne as [i Hi].
  destruct (Hrem i) as [Hin _]. destruct (Hin Hi) as [Hidx _].
  apply subset_size. set_solver.
Qed.

Lemma neighbors_subseteq (cw : Crossword) x : neighbors cw x ⊆ variables cw.
Proof. unfold neighbors. intros v [_ Hv]%elem_of_filter. exact Hv. Qed.

(** Every pass through the loop body that goes on lowers the measure. *)
Lemma ac3_iteration_decreases (cw : Crossword) domains arcs st' :
  ac3_iteration cw domains arcs = Continue st' ->
  ac3_measure cw st' < ac3_measure cw (domains, arcs).
Proof.
  unfold ac3_iteration, ac3_measure. destruct arcs as [|[x y] rest]; [done|].
  destruct (revise cw domains x y) as [[[] domains']|e] eqn:Hrev; [| |done].
  - apply revise_measure in Hrev.
    destruct (getitem domains' x) as [dx|e]; [|done].
    destruct (decide (size dx = 0)); [done|]. intros [= <-]. simpl.
    rewrite length_app, length_fmap.
    assert (length (elements (neighbors cw x ∖ {[y]})) ≤ size (variables cw)).
    { change (size (neighbors cw x ∖ {[y]}) ≤ size (variables cw)).
      apply subseteq_size. pose proof (neighbors_subseteq cw x). set_solver. }
    nia.
  - apply revise_measure in Hrev as ->. intros [= <-]. simpl. lia.
Qed.

(** * ac3 and solve *)

Definition inspect {A} (a : A) : {b | a = b} := exist _ a eq_refl.

(** [while arcs: ...], by well-founded recursion on the loop measure. *)
Equations? ac3_loop (cw : Crossword) (st : Domains * list Arc)
  : result (bool * Domains) by wf (ac3_measure cw st) lt :=
  ac3_loop cw st with inspect (ac3_iteration cw st.1 st.2) := {
    | exist _ (Break r) _ := r;
    | exist _ (Continue st') Hiter := ac3_loop cw st' }.
Proof. by apply ac3_iteration_decreases. Qed.

(** [ac3(arcs)] returns its boolean and leaves the store it has pruned. *)
Definition ac3 (cw : Crossword) (domains : Domains) (arcs : option (list Arc))
  : result (bool * Domains) :=
  ac3_loop cw (domains, deque_of cw arcs).

(** [solve()]: the two pruning passes, then the search from the empty dict.
    The value of [ac3] is not looked at.  The search can nest no deeper than
    one call per slot, plus the call that finds the dict complete. *)
Definition solve (cw : Crossword) (domains : Domains) : outcome :=
  match enforce_node_consistency domains with
  | Raise e => Raised e
  | Ok domains1 =>
      match ac3 cw domains1 None with
      | Raise e => Raised e
      | Ok (_, domains2) =>
          backtrack cw domains2 (S (size (variables cw))) ∅
      end
  end.

Lemma ac3_loop_step (cw : Crossword) (st : Domains * list Arc) :
  ac3_loop cw st =
  match ac3_iteration cw st.1 st.2 with
  | Break r => r
  | Continue st' => ac3_loop cw st'
  end.
Proof.
  funelim (ac3_loop cw st);
    match goal with H : ac3_iteration _ _ _ = _ |- _ => by rewrite H end.
Qed.

(** The loop seen from outside: one state follows another when a pass
    through the body hands it on. *)
Definition ac3_next (cw : Crossword) (st' st : Domains * list Arc) : Prop :=
  ac3_iteration cw st.1 st.2 = Continue st'.

(** The loop run for at most [n] passes. *)
Fixpoint ac3_run (cw : Crossword) (n : nat) (st : Domains * list Arc)
  : option (result (bool * Domains)) :=
  match n with
  | 0 => None
  | S n' =>
      match ac3_iteration cw st.1 st.2 with
      | Break r => Some r
      | Continue st' => ac3_run cw n' st'
      end
  end.

Lemma ac3_run_enough (cw : Crossword) n st :
  ac3_measure cw st < n -> ac3_run cw n st = Some (ac3_loop cw st).
Proof.
  revert st. induction n as [|n IH]; intros st Hn; [lia|].
  simpl. rewrite ac3_loop_step.
  destruct (ac3_iteration cw st.1 st.2) as [st'|r] eqn:Hiter; [|done].
  apply IH. destruct st as [domains arcs]. simpl in Hiter.
  apply ac3_iteration_decreases in Hiter. lia.
Qed.

(** Invariant rule for the worklist loop. *)
Lemma ac3_loop_invariant (cw : Crossword)
    (Inv : Domains * list Arc -> Prop) (Post : result (bool * Domains) -> Prop) :
  (∀ st st', Inv st -> ac3_iteration cw st.1 st.2 = Continue st' -> Inv st') ->
  (∀ st r, Inv st -> ac3_iteration cw st.1 st.2 = Break r -> Post r) ->
  ∀ st, Inv st -> Post (ac3_loop cw st).
Proof.
  intros Hstep Hexit st Hst.
  pose proof (ac3_run_enough cw (S (ac3_measure cw st)) st (Nat.lt_succ_diag_r _))
    as Hrun.
  revert Hrun. generalize (ac3_loop cw st) as r.
  generalize (S (ac3_measure cw st)) as n. intros n. revert st Hst.
  induction n as [|n IH]; intros st Hst r; simpl; [done|].
  destruct (ac3_iteration cw st.1 st.2) as [st'|r'] eqn:Hiter.
  - apply IH. by apply (Hstep st).
  - intros [= <-]. by apply (Hexit st).
Qed.

(** C6. Termination of [ac3]: the relation between successive states of the
    worklist loop is well founded, so the loop cannot run forever; the store
    never grows in a pass and the worklist grows only in a pass that strictly
    shrinks the store; and the loop, which is a total function by
    well-founded recursion on the measure built from the size of the store,
    is left after at most that many passes plus one. *)
Theorem ac3_terminates (cw : Crossword) :
  well_founded (ac3_next cw) ∧
  (∀ domains arcs st',
     ac3_iteration cw domains arcs = Continue st' ->
     total_size st'.1 ≤ total_size domains ∧
     (length arcs ≤ length st'.2 -> total_size st'.1 < total_size domains)) ∧
  (∀ domains arcs,
     ac3_run cw (S (ac3_measure cw (domains, deque_of cw arcs)))
             (domains, deque_of cw arcs)
     = Some (ac3 cw domains arcs)).
Proof.
  split; [|split].
  - apply (well_founded_lt_compat _ (ac3_measure cw)).
    intros st' [domains arcs] Hnext. by apply ac3_iteration_decreases.
  - intros domains arcs st'. unfold ac3_iteration.
    destruct arcs as [|[x y] rest]; [done|].
    destruct (revise cw domains x y) as [[[] domains']|e] eqn:Hrev; [| |done].
    + apply revise_measure in Hrev.
      destruct (getitem domains' x) as [dx|e]; [|done].
      destruct (decide (size dx = 0)); [done|]. intros [= <-]. simpl. lia.
    + apply revise_measure in Hrev as ->. intros [= <-]. simpl. lia.
  - intros domains arcs. apply ac3_run_enough. lia.
Qed.

(** * Arc consistency: what ac3 establishes *)

(** Every word of the domain of [x] has a partner in the domain of [y]. *)
Definition arc_consistent (cw : Crossword) (domains : Domains) (x y : Slot)
  : Prop :=
  ∀ a b dx w, overlaps cw x y = Some (a, b) -> domains !! x = Some dx ->
              w ∈ dx -> supported domains y a b w.

Lemma elem_of_neighbors (cw : Crossword) x y :
  y ∈ neighbors cw x ↔ y ∈ variables cw ∧ y ≠ x ∧ is_Some (overlaps cw y x).
Proof. unfold neighbors. rewrite elem_of_filter. tauto. Qed.

Lemma elem_of_initial_arcs (cw : Crossword) x y :
  (x, y) ∈ initial_arcs cw ↔ x ∈ variables cw ∧ y ∈ neighbors cw x.
Proof.
  unfold initial_arcs. rewrite list_elem_of_bind. split.
  - intros (v1 & Hin & Hv1%elem_of_elements).
    apply list_elem_of_bind in Hin as (v2 & Hin & Hv2%elem_of_elements).
    apply list_elem_of_singleton in Hin as [= -> ->]. done.
  - intros [Hx Hy]. exists x. rewrite elem_of_elements. split; [|done].
    apply list_elem_of_bind. exists y. rewrite elem_of_elements.
    split; [|done]. by apply list_elem_of_singleton.
Qed.

Lemma agree_sym i a j b : agree i a j b -> agree j b i a.
Proof. intros (c & Hi & Hj). by exists c. Qed.

Section ac3_facts.
Context (cw : Crossword).

(** A revision only touches the domain of [x], and only removes words. *)
Lemma supported_other (domains : Domains) x (d : gset string) y a b w :
  y ≠ x -> supported domains y a b w -> supported (<[x := d]> domains) y a b w.
Proof.
  intros Hyx (dy & j & Hdy & Hj). exists dy, j.
  by rewrite lookup_insert_ne.
Qed.

Lemma lookup_shrunk (domains : Domains) x (dx d remove : gset string) z :
  domains !! x = Some dx ->
  <[x := dx ∖ remove]> domains !! z = Some d ->
  ∃ d0, domains !! z = Some d0 ∧ d ⊆ d0.
Proof.
  intros Hdx. destruct (decide (z = x)) as [->|Hzx].
  - rewrite lookup_insert_eq. intros [= <-]. exists dx. split; [done|].
    apply subseteq_difference_l. done.
  - rewrite lookup_insert_ne by done. intros ->. by exists d.
Qed.

(** The worklist invariant: an arc of the graph that is not waiting on the
    worklist is consistent. *)
Definition arcs_pending_or_consistent (st : Domains * list Arc) : Prop :=
  ∀ x y, x ∈ variables cw -> y ∈ neighbors cw x ->
         (x, y) ∈ st.2 ∨ arc_consistent cw st.1 x y.

Lemma ac3_iteration_preserves st st' :
  overlaps_symmetric cw ->
  arcs_pending_or_consistent st ->
  ac3_iteration cw st.1 st.2 = Continue st' ->
  arcs_pending_or_consistent st'.
Proof.
  intros Hsym Hinv. destruct st as [domains arcs].
  unfold arcs_pending_or_consistent in *. simpl in *.
  unfold ac3_iteration. destruct arcs as [|[x0 y0] rest]; [done|].
  destruct (revise cw domains x0 y0) as [[revised domains']|e] eqn:Hrev;
    [|done].
  apply revise_Ok in Hrev
    as [(-> & -> & Hkeep)|(-> & a & b & dx & remove & Hov & Hdx & Hne & ->
                           & Hrem)].
  - intros [= <-] x y Hx Hy. simpl.
    destruct (Hinv x y Hx Hy) as [[[= -> ->]|Hin]%elem_of_cons|Hcons]; auto.
  - rewrite (getitem_Some _ _ _ (lookup_insert_eq _ _ _)).
    destruct (decide (size (dx ∖ remove) = 0)); [done|].
    intros [= <-] x y Hx Hy. simpl.
    set (new := (fun z => (z, x0)) <$> elements (neighbors cw x0 ∖ {[y0]})).
    destruct (decide ((x, y) ∈ new)) as [Hnew|Hnew];
      [left; apply elem_of_app; by right|].
    destruct (Hinv x y Hx Hy) as [[[= -> ->]|Hin]%elem_of_cons|Hcons];
      [|left; apply elem_of_app; by left|].
    + (* the arc just revised *)
      right. intros a' b' dx' w Hov'. rewrite lookup_insert_eq.
      intros [= <-] [Hw Hnr]%elem_of_difference.
      rewrite Hov in Hov'. injection Hov' as <- <-.
      apply elem_of_neighbors in Hy as (_ & Hy0 & _).
      apply supported_other; [done|]. by apply Hrem.
    + right. destruct (decide (y = x0)) as [->|Hyx0].
      * (* an arc into the revised slot: it is the reverse arc *)
        apply elem_of_neighbors in Hy as (Hx0 & Hx0x & Hovx).
        assert (x = y0) as ->.
        { destruct (decide (x = y0)) as [|Hxy0]; [done|]. destruct Hnew.
          apply list_elem_of_fmap. exists x. split; [done|].
          rewrite elem_of_elements, elem_of_difference, elem_of_singleton.
          split; [|done]. apply elem_of_neighbors.
          split; [done|]. split; [done|].
          rewrite (Hsym x0 x). by apply fmap_is_Some. }
        intros a' b' dy w Hov'. rewrite lookup_insert_ne by done.
        intros Hdy Hw.
        rewrite (Hsym x0 y0), Hov in Hov'. injection Hov' as <- <-.
        destruct (Hcons _ _ _ _ (eq_trans (Hsym x0 y0)
                                   (f_equal (fmap prod_swap) Hov)) Hdy Hw)
          as (dx0 & j & Hdx0 & Hj & Hwj & Hag).
        rewrite Hdx in Hdx0. injection Hdx0 as <-.
        exists (dx ∖ remove), j. rewrite lookup_insert_eq.
        split; [done|]. split; [|done].
        apply elem_of_difference. split; [done|]. intros Hjr.
        destruct (Hrem j) as [Hin _]. destruct (Hin Hjr) as [_ Hns].
        apply Hns. exists dy, w. split; [done|]. split; [done|].
        split; [done|]. by apply agree_sym.
      * (* any other arc: its target is untouched, its source can only
           have lost words *)
        intros a' b' d w Hov' Hd Hw.
        apply (lookup_shrunk _ _ _ _ _ _ Hdx) in Hd as (d0 & Hd0 & Hsub).
        apply supported_other; [done|].
        apply (Hcons a' b' d0 w Hov' Hd0). by apply Hsub.
Qed.

(** C4. Soundness of [ac3()] started from all arcs, on a puzzle graph with
    symmetric overlap records: when it returns [True], every word in the
    domain of a slot has, for each neighbour of the slot, a different word in
    the domain of the neighbour with the same letter in the shared cell. *)
Theorem ac3_sound (domains domains' : Domains) :
  overlaps_symmetric cw ->
  ac3 cw domains None = Ok (true, domains') ->
  ∀ x y a b dx w,
    x ∈ variables cw -> y ∈ neighbors cw x ->
    overlaps cw x y = Some (a, b) ->
    domains' !! x = Some dx -> w ∈ dx ->
    ∃ dy w', domains' !! y = Some dy ∧ w' ∈ dy ∧ w ≠ w' ∧ agree w a w' b.
Proof.
  intros Hsym Hrun x y a b dx w Hx Hy Hov Hdx Hw.
  enough (∀ x y, x ∈ variables cw -> y ∈ neighbors cw x ->
                 arc_consistent cw domains' x y) as Hcons
      by exact (Hcons x y Hx Hy a b dx w Hov Hdx Hw).
  clear x y a b dx w Hx Hy Hov Hdx Hw. revert domains' Hrun. unfold ac3.
  apply (ac3_loop_invariant cw arcs_pending_or_consistent
           (fun r => ∀ d, r = Ok (true, d) ->
              ∀ x y, x ∈ variables cw -> y ∈ neighbors cw x ->
                     arc_consistent cw d x y)).
  - intros st st' Hinv Hiter. by apply (ac3_iteration_preserves st).
  - intros [d arcs] r Hinv. simpl. unfold ac3_iteration.
    destruct arcs as [|[x0 y0] rest].
    + intros [= <-] d' [= <-] x y Hx Hy.
      destruct (Hinv x y Hx Hy) as [Hin|Hcons]; [|done].
      by apply elem_of_nil in Hin.
    + destruct (revise cw d x0 y0) as [[[] d1]|e]; [| |by intros [= <-]].
      * destruct (getitem d1 x0) as [dx0|e]; [|by intros [= <-]].
        destruct (decide (size dx0 = 0)); [by intros [= <-]|done].
      * done.
  - intros x y Hx Hy. left. simpl. by apply elem_of_initial_arcs.
Qed.
End ac3_facts.

(** * Arc consistency: failure detection *)

(** Relative to the store [domains0] that [ac3] was entered with: the slots
    whose domain was not empty still have a non-empty domain, and no domain
    has gained a word. *)
Definition none_emptied (domains0 : Domains) (st : Domains * list Arc) : Prop :=
  (∀ x (d0 : gset string), domains0 !! x = Some d0 -> d0 ≠ ∅ ->
     ∃ d : gset string, st.1 !! x = Some d ∧ d ≠ ∅) ∧
  (∀ x (d : gset string), st.1 !! x = Some d ->
     ∃ d0 : gset string, domains0 !! x = Some d0 ∧ d ⊆ d0).

Lemma ac3_iteration_none_emptied (cw : Crossword) domains0 st st' :
  none_emptied domains0 st ->
  ac3_iteration cw st.1 st.2 = Continue st' ->
  none_emptied domains0 st'.
Proof.
  intros [Hfull Hsub]. destruct st as [domains arcs]. simpl in *.
  unfold ac3_iteration. destruct arcs as [|[x0 y0] rest]; [done|].
  destruct (revise cw domains x0 y0) as [[revised domains']|e] eqn:Hrev;
    [|done].
  apply revise_Ok in Hrev
    as [(-> & -> & _)|(-> & a & b & dx & remove & _ & Hdx & _ & -> & _)].
  - intros [= <-]. by split.
  - rewrite (getitem_Some _ _ _ (lookup_insert_eq _ _ _)).
    destruct (decide (size (dx ∖ remove) = 0)) as [|Hsize]; [done|].
    intros [= <-]. split; simpl.
    + intros x d0 Hd0 Hne. destruct (decide (x = x0)) as [->|Hx].
      * exists (dx ∖ remove). rewrite lookup_insert_eq. split; [done|].
        intros Hemp. apply Hsize. rewrite Hemp. apply size_empty.
      * rewrite lookup_insert_ne by done. by apply (Hfull x d0).
    + intros x d Hd.
      apply (lookup_shrunk _ _ _ _ _ _ Hdx) in Hd as (d1 & Hd1 & Hdd1).
      destruct (Hsub x d1 Hd1) as (d0 & Hd0 & Hd10). exists d0.
      split; [done|]. by transitivity d1.
Qed.

(** Where the emptiness test of [ac3] sits.  A pass whose revision leaves
    the domain of [x] empty leaves the loop at once with [False]; the loop is
    left with [True] only on an empty worklist; and whenever [ac3] returns,
    it returns [False] exactly when it has emptied a domain that was not
    empty on entry. *)
Theorem ac3_failure_detection (cw : Crossword) :
  (∀ (domains domains' : Domains) x y rest,
     revise cw domains x y = Ok (true, domains') ->
     domains' !! x = Some ∅ ->
     ac3_iteration cw domains ((x, y) :: rest) = Break (Ok (false, domains'))) ∧
  (∀ (domains domains' : Domains) arcs,
     ac3_iteration cw domains arcs = Break (Ok (true, domains')) ->
     arcs = [] ∧ domains' = domains) ∧
  (∀ (domains domains' : Domains) arcs (b : bool),
     ac3 cw domains arcs = Ok (b, domains') ->
     b = false ↔
     ∃ x (dx : gset string),
       domains !! x = Some dx ∧ dx ≠ ∅ ∧ domains' !! x = Some ∅).
Proof.
  split; [|split].
  - intros domains domains' x y rest Hrev Hx. unfold ac3_iteration.
    rewrite Hrev, (getitem_Some _ _ _ Hx).
    by rewrite decide_True by apply size_empty.
  - intros domains domains' arcs. unfold ac3_iteration.
    destruct arcs as [|[x y] rest]; [by intros [= <-]|].
    destruct (revise cw domains x y) as [[[] d1]|e]; [| |done].
    + destruct (getitem d1 x) as [dx|e]; [|done].
      by destruct (decide (size dx = 0)).
    + done.
  - intros domains domains' arcs b. unfold ac3. revert b domains'.
    apply (ac3_loop_invariant cw (none_emptied domains)
             (fun r => ∀ (b : bool) (d : Domains), r = Ok (b, d) ->
                b = false ↔
                ∃ x (dx : gset string),
                  domains !! x = Some dx ∧ dx ≠ ∅ ∧ d !! x = Some ∅)).
    + intros st st'. apply ac3_iteration_none_emptied.
    + intros [d arcs'] r [Hfull Hsub]. simpl in *. unfold ac3_iteration.
      destruct arcs' as [|[x0 y0] rest].
      * intros [= <-] b d' [= <- <-]. split; [done|].
        intros (x & dx & Hdx & Hne & Hemp).
        destruct (Hfull x dx Hdx Hne) as (d' & Hd' & Hne').
        rewrite Hemp in Hd'. by injection Hd' as <-.
      * destruct (revise cw d x0 y0) as [[revised d1]|e] eqn:Hrev;
          [|by intros [= <-]].
        apply revise_Ok in Hrev
          as [(-> & -> & _)|(-> & a & b0 & dx & remove & _ & Hdx & Hne & ->
                             & Hrem)]; [done|].
        rewrite (getitem_Some _ _ _ (lookup_insert_eq _ _ _)).
        destruct (decide (size (dx ∖ remove) = 0)) as [Hsize|]; [|done].
        intros [= <-] b d' [= <- <-]. split; [intros _|done].
        destruct (Hsub x0 dx Hdx) as (d0 & Hd0 & Hdxd0). exists x0, d0.
        split; [done|]. split.
        -- apply set_choose_L in Hne as [i Hi].
           destruct (Hrem i) as [Hin _]. destruct (Hin Hi) as [Hidx _].
           intros Hemp. apply Hdxd0 in Hidx. rewrite Hemp in Hidx.
           by apply not_elem_of_empty in Hidx.
        -- rewrite lookup_insert_eq. f_equal. by apply size_empty_inv in Hsize;
             apply leibniz_equiv.
    + split; simpl; [|by eauto]. intros x d0 Hd0 Hne. eauto.
Qed.

(** * The consistency check *)

(** The test that [consistent] makes on a pair of entries of the dict. *)
Lemma pair_test_true (cw : Crossword) x (i : string) y (j : string) :
  (if decide (x ≠ y) then
     if decide (i = j) then Ok false
     else
       match overlaps cw x y with
       | Some (a, b) =>
           ci ← subscript i a;
           cj ← subscript j b;
           Ok (bool_decide (ci = cj))
       | None => Ok true
       end
   else Ok true) = Ok true
  ↔ (x ≠ y -> i ≠ j ∧ ∀ a b, overlaps cw x y = Some (a, b) -> agree i a j b).
Proof.
  destruct (decide (x ≠ y)) as [Hxy|Hxy]; [|by split].
  destruct (decide (i = j)) as [Hij|Hij].
  { split; [done|]. intros Hall. by destruct (Hall Hxy). }
  destruct (overlaps cw x y) as [[a b]|].
  - rewrite bind_Ok. setoid_rewrite bind_Ok.
    setoid_rewrite subscript_Ok. split.
    + intros (ci & Hci & cj & Hcj & [= Heq%bool_decide_eq_true]) _.
      split; [done|]. intros a' b' [= <- <-]. exists ci. by subst.
    + intros Hall. destruct (Hall Hxy) as [_ Hag].
      destruct (Hag a b eq_refl) as (c & Hci & Hcj).
      exists c. split; [done|]. exists c. split; [done|].
      by rewrite bool_decide_eq_true_2.
  - split; [|done]. intros _ _. split; [done|]. intros a b [=].
Qed.

(** C8. [consistent(assignment)] returns [True] exactly when every assigned
    word has the length of its slot, no two distinct assigned slots hold the
    same word, and the words of two distinct assigned slots that overlap
    agree in the shared cell.  Only entries of the dict are looked at, and
    the check is a function of the dict: it changes nothing. *)
Theorem consistent_spec (cw : Crossword) (assignment : Assignment) :
  consistent cw assignment = Ok true ↔
  (∀ x i, assignment !! x = Some i -> String.length i = slot_length x) ∧
  (∀ x y i j, x ≠ y -> assignment !! x = Some i -> assignment !! y = Some j ->
              i ≠ j) ∧
  (∀ x y i j a b, x ≠ y ->
     assignment !! x = Some i -> assignment !! y = Some j ->
     overlaps cw x y = Some (a, b) -> agree i a j b).
Proof.
  unfold consistent. rewrite all_pass_true. split.
  - intros Hall.
    assert (∀ x i, assignment !! x = Some i ->
              slot_length x = String.length i ∧
              ∀ y j, assignment !! y = Some j -> x ≠ y ->
                i ≠ j ∧ ∀ a b, overlaps cw x y = Some (a, b) -> agree i a j b)
      as Hent.
    { intros x i Hx%elem_of_map_to_list. specialize (Hall _ Hx). simpl in Hall.
      destruct (decide (slot_length x ≠ String.length i)) as [|Hlen]; [done|].
      split; [by apply dec_stable|]. intros y j Hy%elem_of_map_to_list.
      rewrite all_pass_true in Hall. specialize (Hall _ Hy). simpl in Hall.
      exact (proj1 (pair_test_true cw x i y j) Hall). }
    split; [|split].
    + intros x i Hx. by destruct (Hent x i Hx).
    + intros x y i j Hxy Hx Hy. destruct (Hent x i Hx) as [_ Hpair].
      by destruct (Hpair y j Hy Hxy).
    + intros x y i j a b Hxy Hx Hy Hov. destruct (Hent x i Hx) as [_ Hpair].
      destruct (Hpair y j Hy Hxy) as [_ Hag]. by apply Hag.
  - intros (Hlen & Hdiff & Hag) [x i] Hx%elem_of_map_to_list.
    rewrite decide_False by (rewrite (Hlen x i Hx); auto).
    apply all_pass_true. intros [y j] Hy%elem_of_map_to_list.
    apply pair_test_true. intros Hxy. split; [by apply (Hdiff x y)|].
    intros a b. by apply (Hag x y).
Qed.

(** * The stable sort *)

Section stable_sort_facts.
Context {A : Type} (lt : A -> A -> bool).

Lemma elem_of_insert_stable x l t :
  t ∈ insert_stable lt x l ↔ t = x ∨ t ∈ l.
Proof.
  induction l as [|y l IH]; simpl.
  - rewrite list_elem_of_singleton. split; [auto|]. intros [?|?%elem_of_nil]; done.
  - destruct (lt y x); rewrite !elem_of_cons; [rewrite IH|]; tauto.
Qed.

Lemma elem_of_sort_stable l t : t ∈ sort_stable lt l ↔ t ∈ l.
Proof.
  induction l as [|x l IH]; simpl; [done|].
  rewrite elem_of_insert_stable, IH, elem_of_cons. tauto.
Qed.

(** For an order given by keys, the sorted list starts with a least element. *)
Lemma sort_stable_head l h s :
  (∀ a, lt a a = false) ->
  (∀ a b, lt a b = true -> lt b a = false) ->
  (∀ a b c, lt a b = false -> lt b c = false -> lt a c = false) ->
  sort_stable lt l = h :: s ->
  ∀ t, t ∈ l -> lt t h = false.
Proof.
  intros Hirr Hasym Hneg. revert h s.
  induction l as [|x l IH]; intros h s; simpl; [done|].
  destruct (sort_stable lt l) as [|y s'] eqn:Hsort; simpl.
  - intros [= <- <-] t [->|Ht]%elem_of_cons; [done|].
    apply elem_of_sort_stable in Ht. rewrite Hsort in Ht.
    by apply elem_of_nil in Ht.
  - destruct (lt y x) eqn:Hyx.
    + intros [= <- <-] t [->|Ht]%elem_of_cons; [by apply Hasym|].
      by apply (IH y s').
    + intros [= <- <-] t [->|Ht]%elem_of_cons; [done|].
      apply (Hneg t y x); [by apply (IH y s')|done].
Qed.
End stable_sort_facts.

(** * Choosing the next slot *)

Lemma select_key_lt_false (a b : Slot * nat * nat) :
  select_key_lt a b = false ↔
  b.1.2 ≤ a.1.2 ∧ (a.1.2 = b.1.2 -> a.2 ≤ b.2).
Proof.
  destruct a as [[va a1] a2], b as [[vb b1] b2]. unfold select_key_lt.
  rewrite bool_decide_eq_false. simpl. lia.
Qed.

Lemma select_key_lt_true (a b : Slot * nat * nat) :
  select_key_lt a b = true ↔
  a.1.2 < b.1.2 ∨ (a.1.2 = b.1.2 ∧ b.2 < a.2).
Proof.
  destruct a as [[va a1] a2], b as [[vb b1] b2]. unfold select_key_lt.
  rewrite bool_decide_eq_true. simpl. lia.
Qed.

(** The table that [select_unassigned_variable] builds before sorting. *)
Lemma potential_variables_spec (cw : Crossword) (domains : Domains)
    (assignment : Assignment) (l : list Slot) pv :
  for_each (fun potential_variables variable =>
      if decide (variable ∉ dom assignment) then
        words_of_var ← getitem domains variable;
        Ok (potential_variables ++
              [(variable, size words_of_var, size (neighbors cw variable))])
      else Ok potential_variables)
    [] l = Ok pv ->
  ∀ t, t ∈ pv ↔
       ∃ v (d : gset string),
         v ∈ l ∧ (v ∉ dom assignment) ∧ domains !! v = Some d ∧
         t = (v, size d, size (neighbors cw v)).
Proof.
  intros Hrun.
  apply (for_each_invariant
           (fun pre pv => ∀ t, t ∈ pv ↔
              ∃ v (d : gset string),
                v ∈ pre ∧ (v ∉ dom assignment) ∧ domains !! v = Some d ∧
                t = (v, size d, size (neighbors cw v)))
           _ _ _ _ Hrun).
  - intros t. split; [by intros ?%elem_of_nil|].
    by intros (v & d & ?%elem_of_nil & _).
  - intros pre v0 acc acc' _ Hinv Hbody t.
    destruct (decide (v0 ∉ dom assignment)) as [Hv0|Hv0].
    + apply bind_Ok in Hbody as (d0 & Hd0%getitem_Ok & [= <-]).
      rewrite elem_of_app, list_elem_of_singleton, Hinv. split.
      * intros [(v & d & Hv & Hrest)| ->].
        -- exists v, d. rewrite elem_of_app. tauto.
        -- exists v0, d0. rewrite elem_of_app, list_elem_of_singleton. tauto.
      * intros (v & d & [Hv| ->%list_elem_of_singleton]%elem_of_app & Hva & Hd
                & ->).
        -- left. by exists v, d.
        -- right. rewrite Hd0 in Hd. by injection Hd as <-.
    + injection Hbody as <-. rewrite Hinv. split.
      * intros (v & d & Hv & Hrest). exists v, d. rewrite elem_of_app. tauto.
      * intros (v & d & [Hv| ->%list_elem_of_singleton]%elem_of_app & Hva & Hd
                & ->); [by exists v, d|contradiction].
Qed.

(** What [select_unassigned_variable] returns, by cases, on a store that has
    a domain for every slot. *)
Lemma select_unassigned_variable_cases (cw : Crossword) (domains : Domains)
    (assignment : Assignment) :
  (∀ v, v ∈ variables cw -> is_Some (domains !! v)) ->
  match select_unassigned_variable cw domains assignment with
  | Ok (Some var) =>
      (var ∈ variables cw ∧ (var ∉ dom assignment) ∧
       ∀ v (d_var d_v : gset string),
         v ∈ variables cw -> v ∉ dom assignment ->
         domains !! var = Some d_var -> domains !! v = Some d_v ->
         size d_var ≤ size d_v ∧
         (size d_v = size d_var ->
          size (neighbors cw v) ≤ size (neighbors cw var)))
  | Ok None => ∀ v, v ∈ variables cw -> v ∈ dom assignment
  | Raise _ => False
  end.
Proof.
  intros Hdoms. unfold select_unassigned_variable.
  destruct (for_each_returns
              (fun potential_variables variable =>
                 if decide (variable ∉ dom assignment) then
                   words_of_var ← getitem domains variable;
                   Ok (potential_variables ++
                         [(variable, size words_of_var,
                           size (neighbors cw variable))])
                 else Ok potential_variables)
              (elements (variables cw)) []) as [pv Hpv].
  { intros v acc Hv%elem_of_elements.
    destruct (decide (v ∉ dom assignment)); [|eauto].
    destruct (Hdoms v Hv) as [d Hd]. rewrite (getitem_Some _ _ _ Hd).
    simpl. eauto. }
  rewrite Hpv. simpl.
  pose proof (potential_variables_spec _ _ _ _ _ Hpv) as Hmem.
  setoid_rewrite elem_of_elements in Hmem.
  destruct (sort_stable select_key_lt pv) as [|[[var n] g] s] eqn:Hsort.
  - intros v Hv. destruct (decide (v ∈ dom assignment)) as [|Hva]; [done|].
    destruct (Hdoms v Hv) as [d Hd].
    assert ((v, size d, size (neighbors cw v)) ∈ sort_stable select_key_lt pv)
      as Hin by (apply elem_of_sort_stable, Hmem; by exists v, d).
    rewrite Hsort in Hin. by apply elem_of_nil in Hin.
  - assert ((var, n, g) ∈ pv) as (v0 & d0 & Hv0 & Hv0a & Hd0 & [= -> -> ->])
        %Hmem.
    { apply (elem_of_sort_stable select_key_lt). rewrite Hsort. by left. }
    split; [done|]. split; [done|].
    intros v d_var d_v Hv Hva Hdvar Hdv.
    rewrite Hd0 in Hdvar. injection Hdvar as <-.
    assert (select_key_lt (v, size d_v, size (neighbors cw v))
                          (v0, size d0, size (neighbors cw v0)) = false)
      as Hle%select_key_lt_false.
    { apply (sort_stable_head select_key_lt pv _ s); [| | |done|].
      - intros a. apply select_key_lt_false. lia.
      - intros a b. rewrite select_key_lt_true, select_key_lt_false. lia.
      - intros a b c. rewrite !select_key_lt_false. lia.
      - apply Hmem. by exists v, d_v. }
    simpl in Hle. lia.
Qed.

(** C9. On a store that has a domain for every slot: if some slot is
    unassigned, [select_unassigned_variable] returns an unassigned slot whose
    domain is smallest among the unassigned slots and which has the most
    neighbours among the unassigned slots with a domain of that size; if
    every slot is assigned, it returns [None]. *)
Theorem select_unassigned_variable_spec (cw : Crossword) (domains : Domains)
    (assignment : Assignment) :
  (∀ v, v ∈ variables cw -> is_Some (domains !! v)) ->
  ((∃ v, v ∈ variables cw ∧ v ∉ dom assignment) ->
   ∃ var,
     select_unassigned_variable cw domains assignment = Ok (Some var) ∧
     var ∈ variables cw ∧ (var ∉ dom assignment) ∧
     ∀ v (d_var d_v : gset string),
       v ∈ variables cw -> v ∉ dom assignment ->
       domains !! var = Some d_var -> domains !! v = Some d_v ->
       size d_var ≤ size d_v ∧
       (size d_v = size d_var ->
        size (neighbors cw v) ≤ size (neighbors cw var))) ∧
  ((∀ v, v ∈ variables cw -> v ∈ dom assignment) ->
   select_unassigned_variable cw domains assignment = Ok None).
Proof.
  intros Hdoms.
  pose proof (select_unassigned_variable_cases cw domains assignment Hdoms)
    as Hcases.
  destruct (select_unassigned_variable cw domains assignment)
    as [[var|]|e]; [| |done].
  - split.
    + intros _. by exists var.
    + intros Hall. destruct Hcases as (Hvar & Hfree & _).
      destruct Hfree. by apply Hall.
  - split; [|done]. intros (v & Hv & Hfree). destruct Hfree. by apply Hcases.
Qed.

(** * The backtracking search *)

Lemma select_unassigned_variable_Some (cw : Crossword) (domains : Domains)
    (assignment : Assignment) var :
  select_unassigned_variable cw domains assignment = Ok (Some var) ->
  var ∈ variables cw ∧ (var ∉ dom assignment).
Proof.
  unfold select_unassigned_variable.
  intros (pv & Hpv & Hsel)%bind_Ok.
  pose proof (potential_variables_spec _ _ _ _ _ Hpv) as Hmem.
  destruct (sort_stable select_key_lt pv) as [|[[v n] g] s] eqn:Hsort; [done|].
  injection Hsel as ->.
  assert ((var, n, g) ∈ pv) as (v0 & d0 & Hv0 & Hv0a & _ & [= -> _ _])%Hmem.
  { apply (elem_of_sort_stable select_key_lt). rewrite Hsort. by left. }
  by apply elem_of_elements in Hv0.
Qed.

(** The keys of the dict on return: a call never drops a binding it was
    given. *)
Definition keeps_keys (assignment : Assignment) (o : outcome) : Prop :=
  match o with
  | Found r | Failed r => dom assignment ⊆ dom r
  | Raised _ | OutOfDepth => True
  end.

Section backtrack_facts.
Context (cw : Crossword) (domains : Domains).

Lemma try_values_keeps_keys recurse var values (entry assignment : Assignment) :
  (∀ a, keeps_keys a (recurse a)) ->
  var ∉ dom entry ->
  dom entry ⊆ dom assignment ->
  keeps_keys entry (try_values cw recurse var values assignment).
Proof.
  intros Hrec Hvar. revert assignment.
  induction values as [|value values IH]; intros assignment Hsub; simpl;
    [done|].
  destruct (consistent cw (<[var:=value]> assignment)) as [[]|e]; [| |done].
  - pose proof (Hrec (<[var:=value]> assignment)) as Hkeys.
    destruct (recurse (<[var:=value]> assignment)) as [r|r|e|]; simpl in Hkeys;
      [| |done|done].
    + destruct (decide (r ≠ ∅)); [simpl|apply IH]; set_solver.
    + apply IH. set_solver.
  - apply IH. rewrite dom_delete, dom_insert. set_solver.
Qed.

Lemma backtrack_keeps_keys depth (assignment : Assignment) :
  keeps_keys assignment (backtrack cw domains depth assignment).
Proof.
  revert assignment. induction depth as [|depth IH]; intros assignment; simpl;
    [done|].
  destruct (assignment_complete cw assignment); [simpl; reflexivity|].
  destruct (select_unassigned_variable cw domains assignment)
    as [[var|]|e] eqn:Hsel; [|done|done].
  apply select_unassigned_variable_Some in Hsel as [_ Hvar].
  destruct (order_domain_values cw domains var assignment) as [values|e];
    [|done].
  by apply try_values_keeps_keys.
Qed.

Lemma try_values_in_depth recurse var values (entry assignment : Assignment) :
  (∀ a, keeps_keys a (recurse a)) ->
  (∀ a, dom entry ∪ {[var]} ⊆ dom a -> recurse a ≠ OutOfDepth) ->
  var ∉ dom entry ->
  dom entry ⊆ dom assignment ->
  try_values cw recurse var values assignment ≠ OutOfDepth.
Proof.
  intros Hkeys Hrec Hvar. revert assignment.
  induction values as [|value values IH]; intros assignment Hsub; simpl;
    [done|].
  destruct (consistent cw (<[var:=value]> assignment)) as [[]|e]; [| |done].
  - pose proof (Hkeys (<[var:=value]> assignment)) as Hk.
    pose proof (Hrec (<[var:=value]> assignment)) as Hd.
    destruct (recurse (<[var:=value]> assignment)) as [r|r|e|]; simpl in Hk;
      [| |done|].
    + destruct (decide (r ≠ ∅)); [done|]. apply IH. set_solver.
    + apply IH. set_solver.
    + apply Hd. set_solver.
  - apply IH. rewrite dom_delete, dom_insert. set_solver.
Qed.

(** The depth bound is never met when it exceeds the number of slots that
    are still unassigned. *)
Lemma backtrack_in_depth depth (assignment : Assignment) :
  size (variables cw ∖ dom assignment) < depth ->
  backtrack cw domains depth assignment ≠ OutOfDepth.
Proof.
  revert assignment. induction depth as [|depth IH]; intros assignment Hsize;
    simpl; [lia|].
  destruct (assignment_complete cw assignment); [done|].
  destruct (select_unassigned_variable cw domains assignment)
    as [[var|]|e] eqn:Hsel; [|done|done].
  apply select_unassigned_variable_Some in Hsel as [Hvar Hfree].
  destruct (order_domain_values cw domains var assignment) as [values|e];
    [|done].
  apply (try_values_in_depth _ _ _ assignment);
    [apply backtrack_keeps_keys| |done|done].
  intros a Ha. apply IH.
  assert (variables cw ∖ dom a ⊂ variables cw ∖ dom assignment) as Hlt.
  { split; [set_solver|]. intros Hsub. specialize (Hsub var). set_solver. }
  apply subset_size in Hlt. lia.
Qed.

(** The loop after a consistent binding whose recursive call has returned
    [None]: it goes on to the next candidate with the dict as that call left
    it, the binding of [var] included. *)
Lemma try_values_after_failed_recursion recurse var value values
    (assignment left : Assignment) :
  consistent cw (<[var := value]> assignment) = Ok true ->
  recurse (<[var := value]> assignment) = Failed left ->
  try_values cw recurse var (value :: values) assignment
  = try_values cw recurse var values left.
Proof. intros Hcons Hrec. simpl. by rewrite Hcons, Hrec. Qed.

(** The loop after an inconsistent binding: the binding is popped. *)
Lemma try_values_after_inconsistent recurse var value values
    (assignment : Assignment) :
  consistent cw (<[var := value]> assignment) = Ok false ->
  try_values cw recurse var (value :: values) assignment
  = try_values cw recurse var values (delete var (<[var := value]> assignment)).
Proof. intros Hcons. simpl. by rewrite Hcons. Qed.

(** Whatever [backtrack] returns as found is complete and passes the
    consistency check. *)
Lemma try_values_sound recurse var values (assignment r : Assignment) :
  (∀ a r, consistent cw a = Ok true -> recurse a = Found r ->
          assignment_complete cw r = true ∧ consistent cw r = Ok true) ->
  try_values cw recurse var values assignment = Found r ->
  assignment_complete cw r = true ∧ consistent cw r = Ok true.
Proof.
  intros Hrec. revert assignment.
  induction values as [|value values IH]; intros assignment; simpl; [done|].
  destruct (consistent cw (<[var:=value]> assignment)) as [[]|e] eqn:Hcons;
    [| |done].
  - pose proof (Hrec (<[var:=value]> assignment)) as Hr.
    destruct (recurse (<[var:=value]> assignment)) as [r'|r'|e|];
      [| |done|done].
    + destruct (decide (r' ≠ ∅)); [|apply IH].
      intros [= <-]. by apply Hr.
    + apply IH.
  - apply IH.
Qed.

Lemma backtrack_sound depth (assignment r : Assignment) :
  consistent cw assignment = Ok true ->
  backtrack cw domains depth assignment = Found r ->
  assignment_complete cw r = true ∧ consistent cw r = Ok true.
Proof.
  revert assignment r. induction depth as [|depth IH]; intros assignment r;
    simpl; [done|].
  intros Hcons. destruct (assignment_complete cw assignment) eqn:Hcomplete.
  { by intros [= <-]. }
  destruct (select_unassigned_variable cw domains assignment)
    as [[var|]|e]; [|done|done].
  destruct (order_domain_values cw domains var assignment) as [values|e];
    [|done].
  apply try_values_sound. apply IH.
Qed.
End backtrack_facts.

(** [solve] never returns a partial or inconsistent assignment, and its
    search is never cut off by the depth bound. *)
Lemma solve_sound (cw : Crossword) (domains : Domains) :
  solve cw domains ≠ OutOfDepth ∧
  ∀ r, solve cw domains = Found r ->
       assignment_complete cw r = true ∧ consistent cw r = Ok true.
Proof.
  unfold solve. destruct (enforce_node_consistency domains) as [d1|e];
    [|by split].
  destruct (ac3 cw d1 None) as [[b d2]|e]; [|by split]. split.
  - apply backtrack_in_depth. rewrite dom_empty_L, difference_empty_L. lia.
  - intros r. by apply backtrack_sound.
Qed.

(** * The puzzle without slots *)

(** C10. On a puzzle graph without slots, the empty dict is complete, and
    [solve] of the creator built for that graph returns the empty dict as
    its assignment, not [None]. *)
Theorem solve_no_slots (cw : Crossword) :
  variables cw = ∅ ->
  assignment_complete cw ∅ = true ∧
  solve cw (init_domains cw) = Found ∅ ∧
  ∀ left, solve cw (init_domains cw) ≠ Failed left.
Proof.
  intros Hvars.
  assert (assignment_complete cw ∅ = true) as Hcomplete.
  { unfold assignment_complete. by rewrite Hvars, elements_empty. }
  assert (solve cw (init_domains cw) = Found ∅) as Hsolve.
  { unfold solve, init_domains. rewrite Hvars, gset_to_gmap_empty.
    unfold enforce_node_consistency. rewrite dom_empty_L, elements_empty.
    simpl. unfold ac3. rewrite ac3_loop_step. simpl.
    unfold initial_arcs. rewrite Hvars, elements_empty. simpl.
    by rewrite Hcomplete. }
  split; [done|]. split; [done|]. intros left. by rewrite Hsolve.
Qed.

(** * Worked puzzles *)

(** Closed decidable facts (membership in an explicit set and the like). *)
Ltac by_computation := refine (bool_decide_unpack _ _); vm_compute; exact I.

Local Open Scope string_scope.
Local Open Scope nat_scope.
Local Open Scope stdpp_scope.

(** ** A puzzle without slots *)

Definition no_overlaps (x y : Slot) : option (nat * nat) := None.

Definition cw_empty : Crossword := mkCrossword ∅ no_overlaps {["CAT"; "DOG"]}.

Lemma solve_no_slots_witness :
  assignment_complete cw_empty ∅ = true ∧
  solve cw_empty (init_domains cw_empty) = Found ∅ ∧
  ∀ left, solve cw_empty (init_domains cw_empty) ≠ Failed left.
Proof. apply (solve_no_slots cw_empty). reflexivity. Defined.

(** ** A grid in the shape of a gate

    The top row is an across slot of four cells; from its two ends hang two
    down slots of three cells:
<<
      _ _ _ _
      _ # # _
      _ # # _
>>
*)

Definition gate_left : Slot := mkSlot 0 0 DOWN 3.
Definition gate_top : Slot := mkSlot 0 0 ACROSS 4.
Definition gate_right : Slot := mkSlot 0 3 DOWN 3.

Definition gate_overlaps (x y : Slot) : option (nat * nat) :=
  if decide (x = gate_left ∧ y = gate_top) then Some (0, 0)
  else if decide (x = gate_top ∧ y = gate_left) then Some (0, 0)
  else if decide (x = gate_top ∧ y = gate_right) then Some (3, 0)
  else if decide (x = gate_right ∧ y = gate_top) then Some (0, 3)
  else None.

Definition cw_gate : Crossword :=
  mkCrossword {[gate_left; gate_top; gate_right]} gate_overlaps
    {["ABC"; "EGH"; "FKL"; "FOP"; "ADEA"; "AMNA"; "EIJF"]}.

Lemma gate_overlaps_symmetric : overlaps_symmetric cw_gate.
Proof.
  intros x y. simpl. unfold gate_overlaps.
  repeat case_decide; try reflexivity; exfalso; naive_solver.
Qed.

(** The store after node consistency, which [ac3] finds arc consistent
    after pruning. *)
Definition gate_node_consistent : Domains :=
  {[ gate_left := {["ABC"; "EGH"; "FKL"; "FOP"]};
     gate_top := {["ADEA"; "AMNA"; "EIJF"]};
     gate_right := {["ABC"; "EGH"; "FKL"; "FOP"]} ]}.

Definition gate_arc_consistent : Domains :=
  {[ gate_left := {["ABC"; "EGH"]};
     gate_top := {["ADEA"; "AMNA"; "EIJF"]};
     gate_right := {["ABC"; "FKL"; "FOP"]} ]}.

Lemma gate_enforce_node_consistency :
  enforce_node_consistency (init_domains cw_gate) = Ok gate_node_consistent.
Proof. vm_compute. reflexivity. Qed.

Lemma gate_ac3 :
  ac3 cw_gate gate_node_consistent None = Ok (true, gate_arc_consistent).
Proof. vm_compute. reflexivity. Qed.

Lemma revise_spec_witness :
  ∃ r, revise cw_gate gate_node_consistent gate_left gate_top = Ok r.
Proof.
  pose proof (revise_spec cw_gate gate_node_consistent gate_left gate_top
                {["ABC"; "EGH"; "FKL"; "FOP"]} {["ADEA"; "AMNA"; "EIJF"]}
                eq_refl eq_refl) as Hspec.
  change (overlaps cw_gate gate_left gate_top) with (Some (0, 0)) in Hspec.
  destruct Hspec as [Hreturns _]. apply Hreturns.
  - intros i Hi. set_unfold in Hi. destruct_or!; subst; simpl; lia.
  - intros j Hj. set_unfold in Hj. destruct_or!; subst; simpl; lia.
Defined.

Lemma ac3_sound_witness :
  ∃ dy w', gate_arc_consistent !! gate_top = Some dy ∧ w' ∈ dy ∧
           "ABC" ≠ w' ∧ agree "ABC" 0 w' 0.
Proof.
  apply (ac3_sound cw_gate gate_node_consistent gate_arc_consistent
           gate_overlaps_symmetric gate_ac3 gate_left gate_top 0 0
           {["ABC"; "EGH"]} "ABC").
  - by_computation.
  - by_computation.
  - reflexivity.
  - reflexivity.
  - by_computation.
Defined.

Definition gate_first_binding : Assignment := {[ gate_left := "ABC" ]}.

Lemma select_unassigned_variable_spec_witness :
  ∃ var,
    select_unassigned_variable cw_gate gate_arc_consistent gate_first_binding
    = Ok (Some var) ∧
    var ∈ variables cw_gate ∧ (var ∉ dom gate_first_binding) ∧
    ∀ v (d_var d_v : gset string),
      v ∈ variables cw_gate -> v ∉ dom gate_first_binding ->
      gate_arc_consistent !! var = Some d_var ->
      gate_arc_consistent !! v = Some d_v ->
      size d_var ≤ size d_v ∧
      (size d_v = size d_var ->
       size (neighbors cw_gate v) ≤ size (neighbors cw_gate var)).
Proof.
  apply (select_unassigned_variable_spec cw_gate gate_arc_consistent
           gate_first_binding).
  - intros v Hv. simpl in Hv. set_unfold in Hv.
    destruct_or!; subst; by eexists.
  - exists gate_top. split; by_computation.
Defined.

(** With this vocabulary the first revision already empties a domain. *)
Definition cw_clash : Crossword :=
  mkCrossword {[gate_left; gate_top; gate_right]} gate_overlaps
    {["ABC"; "DEFG"]}.

Definition clash_node_consistent : Domains :=
  {[ gate_left := {["ABC"]}; gate_top := {["DEFG"]}; gate_right := {["ABC"]} ]}.

Definition clash_emptied : Domains :=
  {[ gate_left := {["ABC"]}; gate_top := ∅; gate_right := {["ABC"]} ]}.

Lemma ac3_failure_detection_witness :
  ac3_iteration cw_clash clash_node_consistent
    [(gate_top, gate_left); (gate_left, gate_top)]
  = Break (Ok (false, clash_emptied)) ∧
  ([] = @nil Arc ∧ clash_emptied = clash_emptied) ∧
  (false = false ↔
   ∃ x (dx : gset string),
     clash_node_consistent !! x = Some dx ∧ dx ≠ ∅ ∧
     clash_emptied !! x = Some ∅).
Proof.
  destruct (ac3_failure_detection cw_clash) as (Hbreak & Hexit & Hiff).
  split; [|split].
  - apply Hbreak; vm_compute; reflexivity.
  - apply (Hexit clash_emptied clash_emptied []). reflexivity.
  - apply (Hiff clash_node_consistent clash_emptied None false).
    vm_compute. reflexivity.
Defined.

(** With no word of three or four letters in the vocabulary, node
    consistency leaves every domain empty, and [ac3] returns [True]. *)
Definition cw_short : Crossword :=
  mkCrossword {[gate_left; gate_top; gate_right]} gate_overlaps {["AB"; "CD"]}.

Definition short_node_consistent : Domains :=
  {[ gate_left := ∅; gate_top := ∅; gate_right := ∅ ]}.

(** C5, at the gate with short words.  The length constraint of the slots
    has made all three domains empty, two of the slots cross a third, and
    [ac3] over all arcs returns [True] with the domains still empty, where
    its docstring has it return [False] when a domain ends up empty: the
    emptiness test is made only on a domain that a revision has just
    shrunk. *)
Lemma ac3_true_with_empty_domains :
  enforce_node_consistency (init_domains cw_short) = Ok short_node_consistent ∧
  short_node_consistent !! gate_top = Some ∅ ∧
  gate_left ∈ neighbors cw_short gate_top ∧
  ac3 cw_short short_node_consistent None = Ok (true, short_node_consistent).
Proof.
  split; [vm_compute; reflexivity|]. split; [reflexivity|].
  split; [by_computation|]. vm_compute. reflexivity.
Qed.

(** ** The search on the gate *)

(** A complete assignment in the sense of the spec: one word of the
    vocabulary for every slot, of the length of the slot, no word used
    twice, and crossing words agreeing in the shared cell. *)
Definition valid_solution (cw : Crossword) (assignment : Assignment) : Prop :=
  dom assignment = variables cw ∧
  (∀ x i, assignment !! x = Some i ->
          i ∈ words cw ∧ String.length i = slot_length x) ∧
  (∀ x y i j, x ≠ y -> assignment !! x = Some i -> assignment !! y = Some j ->
              i ≠ j) ∧
  (∀ x y i j a b, x ≠ y ->
     assignment !! x = Some i -> assignment !! y = Some j ->
     overlaps cw x y = Some (a, b) -> agree i a j b).

Definition gate_solution : Assignment :=
  {[ gate_left := "EGH"; gate_top := "EIJF"; gate_right := "FKL" ]}.

Lemma gate_solution_valid : valid_solution cw_gate gate_solution.
Proof.
  assert (consistent cw_gate gate_solution = Ok true) as Hcons
      by (vm_compute; reflexivity).
  apply consistent_spec in Hcons as (Hlen & Hdiff & Hag).
  split; [vm_compute; reflexivity|]. split; [|by split].
  intros x i Hx. split; [|by apply Hlen].
  unfold gate_solution in Hx.
  repeat (apply lookup_insert_Some in Hx as [[<- <-]|[_ Hx]];
          [by_computation|]).
  apply lookup_singleton_Some in Hx as [<- <-]. by_computation.
Qed.

(** C1, at the gate.  The puzzle has a valid complete assignment, and
    [solve] returns [None]: after the branch [gate_left = "ABC"] has failed,
    [gate_top] is still bound to the last word tried for it, and that stale
    binding makes the check reject [gate_left = "EGH"]. *)
Theorem solve_misses_gate_solution :
  valid_solution cw_gate gate_solution ∧
  solve cw_gate (init_domains cw_gate) = Failed {[ gate_top := "ADEA" ]}.
Proof.
  split; [exact gate_solution_valid|]. vm_compute. reflexivity.
Qed.

(** C2, at the gate.  Entered with [gate_left = "ABC"], [backtrack] tries
    the words of [gate_top] in the order given; "AMNA" is consistent and the
    recursive call under it fails with [gate_top] still bound; the call as a
    whole returns [None] and leaves a binding for [gate_top] that was not
    there on entry. *)
Theorem backtrack_leaves_binding :
  order_domain_values cw_gate gate_arc_consistent gate_top gate_first_binding
  = Ok ["EIJF"; "AMNA"; "ADEA"] ∧
  consistent cw_gate (<[gate_top := "AMNA"]> gate_first_binding) = Ok true ∧
  backtrack cw_gate gate_arc_consistent 2
    (<[gate_top := "AMNA"]> gate_first_binding)
  = Failed (<[gate_top := "AMNA"]> gate_first_binding) ∧
  backtrack cw_gate gate_arc_consistent 3 gate_first_binding
  = Failed (<[gate_top := "ADEA"]> gate_first_binding) ∧
  <[gate_top := "ADEA"]> gate_first_binding ≠ gate_first_binding.
Proof.
  repeat split; try (vm_compute; reflexivity).
  intros Heq. apply (f_equal (fun m : Assignment => m !! gate_top)) in Heq.
  vm_compute in Heq. discriminate Heq.
Qed.

(** * Further properties of the pruning passes *)

Local Close Scope string_scope.

(** The store [domains] has the slots of [domains0] and, for each, a subset
    of its words. *)
Definition shrunk_from (domains0 domains : Domains) : Prop :=
  dom domains = dom domains0 ∧
  ∀ x (d : gset string), domains !! x = Some d ->
    ∃ d0 : gset string, domains0 !! x = Some d0 ∧ d ⊆ d0.

(** Every word of the store has the length of its slot. *)
Definition node_consistent (domains : Domains) : Prop :=
  ∀ x (d : gset string) w, domains !! x = Some d -> w ∈ d ->
    String.length w = slot_length x.

(** Overlap offsets point into the slots. *)
Definition offsets_in_range (cw : Crossword) : Prop :=
  ∀ x y a b, overlaps cw x y = Some (a, b) ->
    a < slot_length x ∧ b < slot_length y.

(** The store has a domain for every slot of the puzzle. *)
Definition covers (cw : Crossword) (domains : Domains) : Prop :=
  ∀ x, x ∈ variables cw -> is_Some (domains !! x).

(** Every slot of the puzzle has its word of [sol] in its domain. *)
Definition solution_in (cw : Crossword) (sol : Assignment) (domains : Domains)
  : Prop :=
  ∀ x, x ∈ variables cw ->
    ∃ w (d : gset string), sol !! x = Some w ∧ domains !! x = Some d ∧ w ∈ d.

Lemma shrunk_from_refl (domains : Domains) : shrunk_from domains domains.
Proof. split; [done|]. intros x d Hd. by exists d. Qed.

Lemma shrunk_from_trans (d0 d1 d2 : Domains) :
  shrunk_from d0 d1 -> shrunk_from d1 d2 -> shrunk_from d0 d2.
Proof.
  intros [Hdom1 Hsub1] [Hdom2 Hsub2]. split; [congruence|].
  intros x d Hd. destruct (Hsub2 x d Hd) as (d' & Hd' & Hdd').
  destruct (Hsub1 x d' Hd') as (d'' & Hd'' & Hdd''). exists d''.
  split; [done|]. by transitivity d'.
Qed.

Lemma node_consistent_shrunk (d0 d1 : Domains) :
  shrunk_from d0 d1 -> node_consistent d0 -> node_consistent d1.
Proof.
  intros [_ Hsub] Hnode x d w Hd Hw.
  destruct (Hsub x d Hd) as (d' & Hd' & Hdd'). apply (Hnode x d'); auto.
Qed.

Lemma covers_shrunk (cw : Crossword) (d0 d1 : Domains) :
  shrunk_from d0 d1 -> covers cw d0 -> covers cw d1.
Proof.
  intros [Hdom _] Hcov x Hx. apply elem_of_dom. rewrite Hdom.
  apply elem_of_dom. by apply Hcov.
Qed.

Section pruning_facts.
Context (cw : Crossword).

Lemma revise_shrunk (domains domains' : Domains) x y revised :
  revise cw domains x y = Ok (revised, domains') ->
  shrunk_from domains domains'.
Proof.
  intros [(-> & -> & _)|(-> & a & b & dx & remove & _ & Hdx & _ & -> & _)]
    %revise_Ok; [apply shrunk_from_refl|].
  split.
  - rewrite dom_insert_L. apply elem_of_dom_2 in Hdx. set_solver.
  - intros z d. by apply lookup_shrunk.
Qed.

(** The ways out of one pass through the loop body. *)
Lemma ac3_iteration_cases (domains : Domains) (arcs : list Arc) :
  match ac3_iteration cw domains arcs with
  | Continue (domains', arcs') =>
      ∃ x y rest revised,
        arcs = (x, y) :: rest ∧
        revise cw domains x y = Ok (revised, domains') ∧
        ((revised = false ∧ arcs' = rest) ∨
         (revised = true ∧
          arcs' = rest ++ ((fun z => (z, x)) <$>
                             elements (neighbors cw x ∖ {[y]})) ∧
          ∃ dx : gset string, domains' !! x = Some dx ∧ dx ≠ ∅))
  | Break (Ok (true, domains')) => arcs = [] ∧ domains' = domains
  | Break (Ok (false, domains')) =>
      ∃ x y rest,
        arcs = (x, y) :: rest ∧
        revise cw domains x y = Ok (true, domains') ∧
        domains' !! x = Some ∅
  | Break (Raise e) =>
      ∃ x y rest, arcs = (x, y) :: rest ∧ revise cw domains x y = Raise e
  end.
Proof.
  unfold ac3_iteration. destruct arcs as [|[x y] rest]; [done|].
  destruct (revise cw domains x y) as [[revised domains']|e] eqn:Hrev;
    [|by exists x, y, rest].
  pose proof Hrev as Hshape.
  apply revise_Ok in Hshape
    as [(-> & -> & _)|(-> & a & b & dx & remove & _ & Hdx & _ & -> & _)].
  - exists x, y, rest, false. split; [done|]. split; [done|]. by left.
  - rewrite (getitem_Some _ _ _ (lookup_insert_eq _ _ _)).
    destruct (decide (size (dx ∖ remove) = 0)) as [Hsize|Hsize].
    + exists x, y, rest. split; [done|]. split; [done|].
      rewrite lookup_insert_eq. f_equal.
      by apply leibniz_equiv, size_empty_inv.
    + exists x, y, rest, true. split; [done|]. split; [done|]. right.
      split; [done|]. split; [done|]. exists (dx ∖ remove).
      rewrite lookup_insert_eq. split; [done|]. intros Hemp. apply Hsize.
      rewrite Hemp. apply size_empty.
Qed.

Lemma ac3_loop_shrunk (domains : Domains) (arcs : list Arc) b domains' :
  ac3_loop cw (domains, arcs) = Ok (b, domains') ->
  shrunk_from domains domains'.
Proof.
  revert b domains'.
  apply (ac3_loop_invariant cw (fun st => shrunk_from domains st.1)
           (fun r => ∀ b d, r = Ok (b, d) -> shrunk_from domains d)).
  - intros [d q] [d' q'] Hinv Hiter. simpl in *.
    pose proof (ac3_iteration_cases d q) as Hcases. rewrite Hiter in Hcases.
    destruct Hcases as (x & y & rest & revised & _ & Hrev & _).
    apply (shrunk_from_trans _ d); [done|]. by apply revise_shrunk in Hrev.
  - intros [d q] r Hinv Hiter b d' ->. simpl in *.
    pose proof (ac3_iteration_cases d q) as Hcases. rewrite Hiter in Hcases.
    destruct b.
    + by destruct Hcases as [_ ->].
    + destruct Hcases as (x & y & rest & _ & Hrev & _).
      apply (shrunk_from_trans _ d); [done|]. by apply revise_shrunk in Hrev.
  - apply shrunk_from_refl.
Qed.

(** [ac3] never adds a slot, drops a slot or adds a word: whatever it
    returns, the store it leaves has the slots it was given, each with a
    subset of its words. *)
Theorem ac3_only_shrinks (domains domains' : Domains) arcs (b : bool) :
  ac3 cw domains arcs = Ok (b, domains') ->
  dom domains' = dom domains ∧
  ∀ x (d' : gset string), domains' !! x = Some d' ->
    ∃ d : gset string, domains !! x = Some d ∧ d' ⊆ d.
Proof. intros Hrun. by apply ac3_loop_shrunk in Hrun. Qed.
End pruning_facts.

(** Node consistency as a map over the store. *)
Lemma enforce_node_consistency_lookup (domains : Domains) :
  ∃ domains' : Domains,
    enforce_node_consistency domains = Ok domains' ∧
    ∀ s, domains' !! s =
         filter (fun w => String.length w = slot_length s) <$> domains !! s.
Proof.
  destruct (node_loop_spec (elements (dom domains))) with (domains := domains)
    as (d1 & Hrun & Hlook).
  { apply NoDup_elements. }
  { intros v. by rewrite elem_of_elements. }
  exists d1. split; [exact Hrun|]. intros s. rewrite Hlook.
  destruct (decide (s ∈ elements (dom domains))) as [|Hs]; [done|].
  rewrite elem_of_elements, not_elem_of_dom in Hs. by rewrite Hs.
Qed.

Section solutions_survive.
Context (cw : Crossword) (sol : Assignment).
Hypothesis sol_valid : valid_solution cw sol.

(** A revision of an arc between two different slots of the puzzle does not
    remove the word of a valid solution. *)
Lemma revise_keeps_solution (domains domains' : Domains) x y revised :
  x ∈ variables cw -> y ∈ variables cw -> x ≠ y ->
  solution_in cw sol domains ->
  revise cw domains x y = Ok (revised, domains') ->
  solution_in cw sol domains'.
Proof.
  intros Hx Hy Hxy Hin
    [(-> & -> & _)|(-> & a & b & dx & remove & Hov & Hdx & _ & -> & Hrem)]
    %revise_Ok; [done|].
  destruct sol_valid as (_ & _ & Hdiff & Hagree).
  intros z Hz. destruct (Hin z Hz) as (w & d & Hw & Hd & Hwd).
  destruct (decide (z = x)) as [->|Hzx].
  - exists w, (dx ∖ remove). rewrite lookup_insert_eq.
    split; [done|]. split; [done|].
    rewrite Hdx in Hd. injection Hd as <-.
    apply elem_of_difference. split; [done|]. intros Hr.
    destruct (Hrem w) as [Hunsup _]. destruct (Hunsup Hr) as [_ Hns].
    apply Hns. destruct (Hin y Hy) as (w' & dy & Hw' & Hdy & Hwdy).
    exists dy, w'. split; [done|]. split; [done|]. split.
    + by apply (Hdiff x y).
    + by apply (Hagree x y).
  - exists w, d. by rewrite lookup_insert_ne.
Qed.

Lemma ac3_loop_keeps_solution (domains : Domains) (arcs : list Arc) b domains' :
  (∀ x y, (x, y) ∈ arcs -> x ∈ variables cw ∧ y ∈ variables cw ∧ x ≠ y) ->
  solution_in cw sol domains ->
  ac3_loop cw (domains, arcs) = Ok (b, domains') ->
  b = true ∧ solution_in cw sol domains'.
Proof.
  intros Harcs Hin. revert b domains'.
  apply (ac3_loop_invariant cw
           (fun st => (∀ x y, (x, y) ∈ st.2 ->
                         x ∈ variables cw ∧ y ∈ variables cw ∧ x ≠ y) ∧
                      solution_in cw sol st.1)
           (fun r => ∀ b d, r = Ok (b, d) -> b = true ∧ solution_in cw sol d)).
  - intros [d q] [d' q'] [Hq Hd] Hiter. simpl in *.
    pose proof (ac3_iteration_cases cw d q) as Hcases.
    rewrite Hiter in Hcases.
    destruct Hcases as (x & y & rest & revised & -> & Hrev & Hq').
    destruct (Hq x y) as (Hx & Hy & Hxy); [by left|]. split.
    + intros u v Huv.
      destruct Hq' as [[_ ->]|(_ & -> & _)]; [apply Hq; by right|].
      apply elem_of_app in Huv as [Huv|Huv]; [apply Hq; by right|].
      apply list_elem_of_fmap in Huv as (z & [= -> ->] & Hz).
      apply elem_of_elements, elem_of_difference in Hz as [Hz _].
      apply elem_of_neighbors in Hz as (Hzv & Hzx & _). done.
    + by apply (revise_keeps_solution d d' x y revised).
  - intros [d q] r [Hq Hd] Hiter b d' ->. simpl in *.
    pose proof (ac3_iteration_cases cw d q) as Hcases.
    rewrite Hiter in Hcases. destruct b.
    + by destruct Hcases as [_ ->].
    + destruct Hcases as (x & y & rest & -> & Hrev & Hemp).
      destruct (Hq x y) as (Hx & Hy & Hxy); [by left|].
      destruct (revise_keeps_solution d d' x y true Hx Hy Hxy Hd Hrev x Hx)
        as (w & dx & _ & Hdx & Hw).
      rewrite Hemp in Hdx. injection Hdx as <-.
      by apply not_elem_of_empty in Hw.
  - split; [exact Harcs|exact Hin].
Qed.

Lemma node_consistency_keeps_solution (domains domains' : Domains) :
  solution_in cw sol domains ->
  enforce_node_consistency domains = Ok domains' ->
  solution_in cw sol domains'.
Proof.
  intros Hin Hrun.
  destruct (enforce_node_consistency_lookup domains) as (d1 & Hrun' & Hlook).
  rewrite Hrun' in Hrun. injection Hrun as <-.
  destruct sol_valid as (_ & Hlen & _).
  intros x Hx. destruct (Hin x Hx) as (w & d & Hw & Hd & Hwd).
  exists w, (filter (fun w => String.length w = slot_length x) d).
  split; [done|]. split; [by rewrite Hlook, Hd|].
  apply elem_of_filter. split; [|done]. by destruct (Hlen x w Hw).
Qed.

(** The two pruning passes of [solve] lose no valid solution: node
    consistency on the store of a new creator returns a store that still
    holds the words of the solution, and [ac3] over all arcs, whenever it
    returns, returns [True] and a store that still holds them. *)
Theorem pruning_keeps_solutions :
  ∃ domains1 : Domains,
    enforce_node_consistency (init_domains cw) = Ok domains1 ∧
    solution_in cw sol domains1 ∧
    ∀ (b : bool) (domains2 : Domains),
      ac3 cw domains1 None = Ok (b, domains2) ->
      b = true ∧ solution_in cw sol domains2.
Proof.
  destruct (enforce_node_consistency_lookup (init_domains cw))
    as (d1 & Hrun & _).
  assert (solution_in cw sol d1) as Hd1.
  { apply (node_consistency_keeps_solution (init_domains cw)); [|done].
    destruct sol_valid as (Hdom & Hwords & _).
    intros x Hx. assert (x ∈ dom sol) as [w Hw]%elem_of_dom by by rewrite Hdom.
    exists w, (words cw). split; [done|]. split.
    - unfold init_domains. by rewrite lookup_gset_to_gmap_Some.
    - by destruct (Hwords x w Hw). }
  exists d1. split; [exact Hrun|]. split; [exact Hd1|].
  intros b d2. apply ac3_loop_keeps_solution; [|done].
  intros x y (Hx & Hy)%elem_of_initial_arcs.
  apply elem_of_neighbors in Hy as (Hy & Hyx & _). done.
Qed.
End solutions_survive.

Section pruning_returns.
Context (cw : Crossword).

Lemma revise_returns (domains : Domains) x y :
  offsets_in_range cw -> node_consistent domains ->
  is_Some (domains !! x) -> is_Some (domains !! y) ->
  ∃ revised domains', revise cw domains x y = Ok (revised, domains').
Proof.
  intros Hrange Hnode [dx Hdx] [dy Hdy]. unfold revise.
  destruct (overlaps cw x y) as [[a b]|] eqn:Hov; [|eauto].
  destruct (Hrange x y a b Hov) as [Ha Hb].
  rewrite (getitem_Some _ _ _ Hdx). simpl.
  destruct (remove_loop_returns domains y dy a b (elements dx))
    as [remove ->]; [done| | |].
  - intros i Hi%elem_of_elements. by rewrite (Hnode x dx i).
  - intros j Hj. by rewrite (Hnode y dy j).
  - simpl. destruct (decide (remove ≠ ∅)); eauto.
Qed.

Lemma ac3_all_arcs_returns (domains : Domains) :
  offsets_in_range cw -> node_consistent domains -> covers cw domains ->
  ∃ (b : bool) (domains' : Domains),
    ac3 cw domains None = Ok (b, domains') ∧
    node_consistent domains' ∧ covers cw domains'.
Proof.
  intros Hrange Hnode Hcov. unfold ac3.
  apply (ac3_loop_invariant cw
           (fun st => (∀ x y, (x, y) ∈ st.2 ->
                         x ∈ variables cw ∧ y ∈ variables cw) ∧
                      shrunk_from domains st.1)
           (fun r => ∃ (b : bool) (d : Domains),
                       r = Ok (b, d) ∧ node_consistent d ∧ covers cw d)).
  - intros [d q] [d' q'] [Hq Hd] Hiter. simpl in *.
    pose proof (ac3_iteration_cases cw d q) as Hcases.
    rewrite Hiter in Hcases.
    destruct Hcases as (x & y & rest & revised & -> & Hrev & Hq').
    destruct (Hq x y) as (Hx & Hy); [by left|]. split.
    + intros u v Huv.
      destruct Hq' as [[_ ->]|(_ & -> & _)]; [apply Hq; by right|].
      apply elem_of_app in Huv as [Huv|Huv]; [apply Hq; by right|].
      apply list_elem_of_fmap in Huv as (z & [= -> ->] & Hz).
      apply elem_of_elements, elem_of_difference in Hz as [Hz _].
      by apply elem_of_neighbors in Hz as (Hzv & _).
    + apply (shrunk_from_trans _ d); [done|]. by apply revise_shrunk in Hrev.
  - intros [d q] r [Hq Hd] Hiter. simpl in *.
    pose proof (ac3_iteration_cases cw d q) as Hcases.
    rewrite Hiter in Hcases. destruct r as [[[] d']|e].
    + destruct Hcases as [_ ->]. exists true, d.
      split; [done|]. split;
        [by apply (node_consistent_shrunk domains)
        |by apply (covers_shrunk cw domains)].
    + destruct Hcases as (x & y & rest & _ & Hrev & _).
      apply revise_shrunk in Hrev.
      pose proof (shrunk_from_trans _ _ _ Hd Hrev) as Hd'.
      exists false, d'. split; [done|]. split;
        [by apply (node_consistent_shrunk domains)
        |by apply (covers_shrunk cw domains)].
    + destruct Hcases as (x & y & rest & -> & Hrev).
      destruct (Hq x y) as (Hx & Hy); [by left|].
      destruct (revise_returns d x y) as (revised & d' & Hrev');
        [done
        |by apply (node_consistent_shrunk domains)
        |by apply (covers_shrunk cw domains)
        |by apply (covers_shrunk cw domains)|].
      congruence.
  - split; [|apply shrunk_from_refl]. simpl.
    intros x y (Hx & Hy)%elem_of_initial_arcs.
    by apply elem_of_neighbors in Hy as (Hy & _).
Qed.

Lemma getitem_None `{Countable K} {V} (d : gmap K V) k :
  d !! k = None -> getitem d k = Raise KeyError.
Proof. unfold getitem. by intros ->. Qed.

Lemma for_each_unchanged {A B} (body : B -> A -> result B) l acc :
  (∀ a, a ∈ l -> body acc a = Ok acc) -> for_each body acc l = Ok acc.
Proof.
  induction l as [|a l IH]; intros Hbody; simpl; [done|].
  rewrite Hbody by by left. simpl. apply IH. intros b Hb. apply Hbody.
  by right.
Qed.

(** On a node-consistent store that has a domain for every slot, and with
    overlap offsets that point into the slots, [ac3] over all arcs raises
    nothing: it returns, and the store it leaves is again node consistent
    and has a domain for every slot. *)
Theorem ac3_returns (domains : Domains) :
  offsets_in_range cw -> node_consistent domains -> covers cw domains ->
  ∃ (b : bool) (domains' : Domains),
    ac3 cw domains None = Ok (b, domains') ∧
    node_consistent domains' ∧ covers cw domains'.
Proof. apply ac3_all_arcs_returns. Qed.

(** The scan of [revise], element by element: it returns when the inner
    scan returns for each word, and then [remove] holds the words without a
    partner. *)
Lemma remove_loop_elements (domains : Domains) y a b (l : list string)
    (remove : gset string) :
  for_each (fun (remove : gset string) i =>
      dy ← getitem domains y;
      found ← has_partner a b i (elements dy);
      Ok (if found : bool then remove else remove ∪ {[i]}))
    ∅ l = Ok remove ->
  ∀ i, i ∈ l ->
    ∃ (dy : gset string) (found : bool),
      domains !! y = Some dy ∧
      has_partner a b i (elements dy) = Ok found ∧
      (found = true ↔ i ∉ remove).
Proof.
  intros Hrun.
  apply (for_each_invariant
           (fun pre (remove : gset string) =>
              (∀ i, i ∈ remove -> i ∈ pre) ∧
              ∀ i, i ∈ pre ->
                ∃ (dy : gset string) (found : bool),
                  domains !! y = Some dy ∧
                  has_partner a b i (elements dy) = Ok found ∧
                  (found = true ↔ i ∉ remove))
           _ _ _ _ Hrun).
  - split; [|by intros i ?%elem_of_nil]. intros i Hi.
    exfalso. by apply (not_elem_of_empty (C := gset string) i).
  - intros pre i0 rem rem' _ [Hsub Hinv] Hbody.
    apply bind_Ok in Hbody as (dy & Hdy%getitem_Ok & Hbody).
    apply bind_Ok in Hbody as (found0 & Hfound0 & [= <-]). split.
    + intros i Hi. apply elem_of_app. destruct found0; [left; auto|].
      apply elem_of_union in Hi as [Hi|Hi%elem_of_singleton]; [left; auto|].
      right. by apply list_elem_of_singleton.
    + intros i [Hi| ->%list_elem_of_singleton]%elem_of_app.
      * destruct (Hinv i Hi) as (dy' & found & Hdy' & Hfound & Hiff).
        exists dy', found. split; [done|]. split; [done|].
        destruct found0; [done|]. rewrite elem_of_union, elem_of_singleton.
        split.
        -- intros Hf [Hr| ->]; [by apply Hiff|].
           rewrite Hdy in Hdy'. injection Hdy' as <-. congruence.
        -- intros Hn. apply Hiff. tauto.
      * exists dy, found0. split; [done|]. split; [done|].
        destruct found0.
        -- split; [intros _|done]. intros Hr.
           destruct (Hinv i0 (Hsub i0 Hr))
             as (dy' & found & Hdy' & Hfound & Hiff).
           rewrite Hdy in Hdy'. injection Hdy' as <-.
           assert (found = true) as -> by congruence. by apply Hiff.
        -- split; [done|]. intros Hn. destruct Hn.
           apply elem_of_union. right. by apply elem_of_singleton.
Qed.

(** [revise] is idempotent on an arc between two different slots: once it
    has returned, a second call on the store it left returns [False] and
    leaves that store as it is. *)
Theorem revise_idempotent (domains domains' : Domains) x y (revised : bool) :
  x ≠ y ->
  revise cw domains x y = Ok (revised, domains') ->
  revise cw domains' x y = Ok (false, domains').
Proof.
  intros Hxy Hrev. pose proof Hrev as Hshape.
  apply revise_Ok in Hshape
    as [(-> & -> & _)|(-> & a & b & dx & remove & Hov & Hdx & _ & -> & _)];
    [done|].
  unfold revise in Hrev |- *. rewrite Hov in Hrev |- *.
  rewrite (getitem_Some _ _ _ Hdx) in Hrev.
  rewrite (getitem_Some _ _ _ (lookup_insert_eq _ _ _)). simpl in *.
  destruct (for_each _ ∅ (elements dx)) as [remove'|e] eqn:Hloop in Hrev;
    [|done].
  simpl in Hrev. pose proof (remove_loop_elements _ _ _ _ _ _ Hloop) as Hel.
  destruct (decide (remove' ≠ ∅)); [|done].
  injection Hrev as Hrev.
  assert (dx ∖ remove' = dx ∖ remove) as Hsame.
  { apply (f_equal (fun m : Domains => m !! x)) in Hrev.
    rewrite !lookup_insert_eq in Hrev. by injection Hrev. }
  rewrite <- Hsame. clear Hrev Hsame.
  rewrite for_each_unchanged.
  { simpl. by rewrite decide_False by (intros Hne; by apply Hne). }
  intros i [Hi Hnr]%elem_of_elements%elem_of_difference.
  destruct (Hel i) as (dy & found & Hdy & Hfound & Hiff);
    [by apply elem_of_elements|].
  rewrite (getitem_Some (<[x:=dx ∖ remove']> domains) y dy);
    [|by rewrite lookup_insert_ne].
  simpl. rewrite Hfound. simpl.
  assert (found = true) as -> by by apply Hiff.
  done.
Qed.

(** Missing slots in [revise]: without an overlap nothing is looked up;
    with an overlap, a missing [x] raises [KeyError], an empty domain of [x]
    returns [False] without looking up [y], and a non-empty one raises
    [KeyError] when [y] is missing. *)
Theorem revise_missing_slot (domains : Domains) x y :
  (overlaps cw x y = None -> revise cw domains x y = Ok (false, domains)) ∧
  (is_Some (overlaps cw x y) -> domains !! x = None ->
   revise cw domains x y = Raise KeyError) ∧
  (is_Some (overlaps cw x y) -> domains !! x = Some ∅ ->
   revise cw domains x y = Ok (false, domains)) ∧
  (∀ dx : gset string,
     is_Some (overlaps cw x y) -> domains !! x = Some dx -> dx ≠ ∅ ->
     domains !! y = None ->
     revise cw domains x y = Raise KeyError).
Proof.
  unfold revise. split; [by intros ->|]. split; [|split].
  - intros [[a b] ->] Hx. unfold getitem. by rewrite Hx.
  - intros [[a b] ->] Hx. rewrite (getitem_Some _ _ _ Hx). simpl.
    rewrite elements_empty. simpl.
    by rewrite decide_False by (intros Hne; by apply Hne).
  - intros dx [[a b] ->] Hx Hne Hy. rewrite (getitem_Some _ _ _ Hx). simpl.
    destruct (elements dx) as [|i l] eqn:Hl.
    { apply elements_empty_inv in Hl. destruct Hne. by apply leibniz_equiv. }
    simpl. by rewrite (getitem_None _ _ Hy).
Qed.
End pruning_returns.

(** * Further properties of the stable sort *)

Section stable_sort_more.
Context {A : Type} (lt : A -> A -> bool).

Lemma insert_stable_Permutation x l : insert_stable lt x l ≡ₚ x :: l.
Proof.
  induction l as [|y l IH]; simpl; [done|].
  destruct (lt y x); [|done]. rewrite IH. apply Permutation_swap.
Qed.

Lemma sort_stable_Permutation l : sort_stable lt l ≡ₚ l.
Proof.
  induction l as [|x l IH]; simpl; [done|].
  by rewrite insert_stable_Permutation, IH.
Qed.

Lemma sort_stable_sorted l :
  (∀ a b, lt a b = true -> lt b a = false) ->
  (∀ a b c, lt b a = false -> lt c b = false -> lt c a = false) ->
  StronglySorted (fun a b => lt b a = false) (sort_stable lt l).
Proof.
  intros Hasym Htrans. induction l as [|x l IH]; simpl; [constructor|].
  induction IH as [|y s Hs IHs Hy]; simpl; [repeat constructor|].
  destruct (lt y x) eqn:Hyx.
  - constructor; [done|].
    apply Forall_forall. intros z [->|Hz]%elem_of_insert_stable.
    + by apply Hasym.
    + by apply (proj1 (Forall_forall _ _) Hy).
  - constructor; [by constructor|]. constructor; [done|].
    apply Forall_forall. intros z Hz. apply (Htrans x y z); [done|].
    by apply (proj1 (Forall_forall _ _) Hy).
Qed.

Lemma sort_stable_fmap {B} (f : B -> A) (l : list B) :
  sort_stable lt (f <$> l) = f <$> sort_stable (fun a b => lt (f a) (f b)) l.
Proof.
  unfold sort_stable. induction l as [|x l IH]; csimpl; [done|]. rewrite IH.
  generalize (foldr (insert_stable (fun a b => lt (f a) (f b))) [] l) as s.
  induction s as [|y s IHs]; csimpl; [done|].
  destruct (lt (f y) (f x)); csimpl; [by rewrite IHs|done].
Qed.
End stable_sort_more.

(** * The order of the candidate words *)

(** [word] and [word2] put different letters into the cell that the overlap
    record names. *)
Definition conflict (ov : option (nat * nat)) (word word2 : string) : bool :=
  match ov with
  | Some (a, b) => bool_decide (String.get a word ≠ String.get b word2)
  | None => false
  end.

(** The number of pairs of a neighbour in [nbs] and a word of its domain
    that [word] in [var] conflicts with. *)
Definition ruled_out (cw : Crossword) (domains : Domains) (nbs : gset Slot)
    (var : Slot) (word : string) : nat :=
  sum_list_with
    (fun n => size (filter (fun w2 => conflict (overlaps cw var n) word w2)
                           (default ∅ (domains !! n))))
    (elements nbs).

Lemma size_filter_elements (P : string -> Prop) `{!∀ w, Decision (P w)}
    (d : gset string) :
  size (filter P d) = length (filter P (elements d)).
Proof.
  unfold size, set_size. simpl. apply Permutation_length.
  apply NoDup_Permutation.
  - apply NoDup_elements.
  - apply NoDup_filter, NoDup_elements.
  - intros w. rewrite elem_of_elements, elem_of_filter, list_elem_of_filter.
    by rewrite elem_of_elements.
Qed.

Section order_facts.
Context (cw : Crossword) (domains : Domains).

Lemma unassigned_neighbors_spec (nbs : gset Slot) (l : list Slot) :
  foldl (fun (neighbors : gset Slot) variable =>
           if decide (variable ∈ neighbors)
           then neighbors ∖ {[variable]}
           else neighbors) nbs l
  = nbs ∖ list_to_set l.
Proof.
  revert nbs. induction l as [|v l IH]; intros nbs; simpl.
  - set_solver.
  - rewrite IH. destruct (decide (v ∈ nbs)); set_solver.
Qed.

Lemma count_words_spec (ov : option (nat * nat)) word (l : list string)
    (acc r : nat) :
  for_each (fun ruled_out word2 =>
      match ov with
      | Some (a, b) =>
          c ← subscript word a;
          c2 ← subscript word2 b;
          Ok (if decide (c ≠ c2) then S ruled_out else ruled_out)
      | None => Ok ruled_out
      end) acc l = Ok r ->
  r = acc + length (filter (fun w2 => conflict ov word w2) l).
Proof.
  revert acc. induction l as [|w2 l IH]; intros acc; simpl.
  - intros [= <-]. lia.
  - intros (acc' & Hstep & Hrest)%bind_Ok. apply IH in Hrest as ->.
    rewrite filter_cons. destruct ov as [[a b]|]; simpl in *.
    + apply bind_Ok in Hstep as (c & Hc%subscript_Ok & Hstep).
      apply bind_Ok in Hstep as (c2 & Hc2%subscript_Ok & [= <-]).
      destruct (decide (c ≠ c2)) as [Hne|Heq].
      * rewrite decide_True; [simpl; lia|].
        apply bool_decide_pack. rewrite Hc, Hc2. congruence.
      * rewrite decide_False; [lia|]. apply dec_stable in Heq.
        intros Hp%bool_decide_unpack. rewrite Hc, Hc2 in Hp. congruence.
    + injection Hstep as <-. lia.
Qed.

Lemma count_neighbors_spec var word (l : list Slot) (acc r : nat) :
  for_each (fun ruled_out neighbor =>
      words_of_neighbor ← getitem domains neighbor;
      for_each (fun ruled_out word2 =>
          match overlaps cw var neighbor with
          | Some (a, b) =>
              c ← subscript word a;
              c2 ← subscript word2 b;
              Ok (if decide (c ≠ c2) then S ruled_out else ruled_out)
          | None => Ok ruled_out
          end)
        ruled_out (elements words_of_neighbor)) acc l = Ok r ->
  r = acc +
      sum_list_with
        (fun n => size (filter (fun w2 => conflict (overlaps cw var n) word w2)
                               (default ∅ (domains !! n)))) l.
Proof.
  revert acc. induction l as [|n l IH]; intros acc; simpl.
  - intros [= <-]. lia.
  - intros (acc' & Hstep & Hrest)%bind_Ok. apply IH in Hrest as ->.
    apply bind_Ok in Hstep as (dn & Hdn%getitem_Ok & Hstep).
    apply count_words_spec in Hstep as ->. rewrite Hdn. simpl.
    rewrite size_filter_elements. lia.
Qed.

(** The table of [order_domain_values] before sorting. *)
Lemma ruled_out_table_spec var (nbs : gset Slot) (l : list string) table :
  for_each (fun result word =>
      ruled_out ← for_each (fun ruled_out neighbor =>
          words_of_neighbor ← getitem domains neighbor;
          for_each (fun ruled_out word2 =>
              match overlaps cw var neighbor with
              | Some (a, b) =>
                  c ← subscript word a;
                  c2 ← subscript word2 b;
                  Ok (if decide (c ≠ c2) then S ruled_out else ruled_out)
              | None => Ok ruled_out
              end)
            ruled_out (elements words_of_neighbor))
        0 (elements nbs);
      Ok (result ++ [(word, ruled_out)]))
    [] l = Ok table ->
  table = (fun word => (word, ruled_out cw domains nbs var word)) <$> l.
Proof.
  intros Hrun.
  apply (for_each_invariant
           (fun pre table =>
              table = (fun word => (word, ruled_out cw domains nbs var word))
                        <$> pre)
           _ _ _ _ Hrun); [done|].
  intros pre word acc acc' _ -> Hbody.
  apply bind_Ok in Hbody as (n & Hn & [= <-]).
  apply count_neighbors_spec in Hn as ->. by rewrite fmap_app.
Qed.

Lemma order_domain_values_sorted var (assignment : Assignment) values :
  order_domain_values cw domains var assignment = Ok values ->
  ∃ d : gset string,
    domains !! var = Some d ∧
    values =
    sort_stable
      (fun w1 w2 =>
         bool_decide
           (ruled_out cw domains (neighbors cw var ∖ dom assignment) var w1 <
            ruled_out cw domains (neighbors cw var ∖ dom assignment) var w2))
      (elements d).
Proof.
  unfold order_domain_values. rewrite unassigned_neighbors_spec.
  assert (neighbors cw var ∖ list_to_set (elements (dom assignment))
          = neighbors cw var ∖ dom assignment) as -> by set_solver.
  intros (d & Hd%getitem_Ok & Hrun)%bind_Ok.
  apply bind_Ok in Hrun as (table & Htable & [= <-]).
  apply ruled_out_table_spec in Htable as ->. exists d. split; [done|].
  rewrite (sort_stable_fmap
             (fun a b : string * nat => bool_decide (a.2 < b.2))).
  rewrite <- list_fmap_compose. simpl. apply list_fmap_id.
Qed.

(** [order_domain_values] returns every word of the domain of [var] exactly
    once, in ascending order of the number of words in the domains of the
    unassigned neighbours of [var] that the word conflicts with. *)
Theorem order_domain_values_spec var (assignment : Assignment) values :
  order_domain_values cw domains var assignment = Ok values ->
  ∃ d : gset string,
    domains !! var = Some d ∧
    values ≡ₚ elements d ∧
    StronglySorted
      (fun w1 w2 =>
         ruled_out cw domains (neighbors cw var ∖ dom assignment) var w1 ≤
         ruled_out cw domains (neighbors cw var ∖ dom assignment) var w2)
      values.
Proof.
  intros (d & Hd & ->)%order_domain_values_sorted. exists d.
  split; [done|]. split; [apply sort_stable_Permutation|].
  rewrite <- (list_fmap_id (sort_stable _ _)).
  eapply (StronglySorted_fmap id); [|apply sort_stable_sorted].
  - intros w1 w2 Hlt%bool_decide_eq_false. simpl in *. lia.
  - intros a b. rewrite bool_decide_eq_true, bool_decide_eq_false. lia.
  - intros a b c. rewrite !bool_decide_eq_false. lia.
Qed.
End order_facts.

(** * Further properties of the search *)

(** Every binding of the dict is a slot of the puzzle with a word of its
    domain. *)
Definition drawn_from (cw : Crossword) (domains : Domains)
    (assignment : Assignment) : Prop :=
  ∀ x w, assignment !! x = Some w ->
    x ∈ variables cw ∧ ∃ d : gset string, domains !! x = Some d ∧ w ∈ d.

(** The bindings of the dict on return include those it was entered with. *)
Definition keeps_bindings (assignment : Assignment) (o : outcome) : Prop :=
  match o with
  | Found r | Failed r => assignment ⊆ r
  | Raised _ | OutOfDepth => True
  end.

(** The dict on return is drawn from the store. *)
Definition leaves_drawn (cw : Crossword) (domains : Domains) (o : outcome)
  : Prop :=
  match o with
  | Found r | Failed r => drawn_from cw domains r
  | Raised _ | OutOfDepth => True
  end.

Lemma all_pass_returns {A} (test : A -> result bool) l :
  (∀ a, a ∈ l -> ∃ b, test a = Ok b) -> ∃ b, all_pass test l = Ok b.
Proof.
  induction l as [|a l IH]; intros Htest; simpl; [eauto|].
  destruct (Htest a) as [b ->]; [by left|]. simpl.
  destruct b; [|eauto]. apply IH. intros c Hc. apply Htest. by right.
Qed.

Section search_facts.
Context (cw : Crossword).

Lemma assignment_complete_true (assignment : Assignment) :
  assignment_complete cw assignment = true ↔ variables cw ⊆ dom assignment.
Proof.
  unfold assignment_complete. rewrite <- Is_true_true, forallb_True.
  rewrite Forall_forall. split.
  - intros Hall x Hx%elem_of_elements.
    exact (bool_decide_unpack _ (Hall x Hx)).
  - intros Hsub x Hx%elem_of_elements. apply bool_decide_pack.
    by apply Hsub.
Qed.

(** What [consistent] returning [True] says about the dict. *)
Lemma consistent_true_inv (assignment : Assignment) :
  consistent cw assignment = Ok true ->
  (∀ x i, assignment !! x = Some i -> String.length i = slot_length x) ∧
  (∀ x y i j, x ≠ y -> assignment !! x = Some i -> assignment !! y = Some j ->
              i ≠ j) ∧
  (∀ x y i j a b, x ≠ y ->
     assignment !! x = Some i -> assignment !! y = Some j ->
     overlaps cw x y = Some (a, b) -> agree i a j b).
Proof.
  unfold consistent. rewrite all_pass_true. intros Hall.
  assert (∀ x i, assignment !! x = Some i ->
            slot_length x = String.length i ∧
            ∀ y j, assignment !! y = Some j -> x ≠ y ->
              i ≠ j ∧ ∀ a b, overlaps cw x y = Some (a, b) -> agree i a j b)
    as Hent.
  { intros x i Hx%elem_of_map_to_list. specialize (Hall _ Hx). simpl in Hall.
    destruct (decide (slot_length x ≠ String.length i)) as [|Hlen]; [done|].
    split; [by apply dec_stable|]. intros y j Hy%elem_of_map_to_list.
    rewrite all_pass_true in Hall. specialize (Hall _ Hy). simpl in Hall.
    exact (proj1 (pair_test_true cw x i y j) Hall). }
  split; [|split].
  - intros x i Hx. by destruct (Hent x i Hx).
  - intros x y i j Hxy Hx Hy. destruct (Hent x i Hx) as [_ Hpair].
    by destruct (Hpair y j Hy Hxy).
  - intros x y i j a b Hxy Hx Hy Hov. destruct (Hent x i Hx) as [_ Hpair].
    destruct (Hpair y j Hy Hxy) as [_ Hag]. by apply Hag.
Qed.

(** With offsets in range, [consistent] raises nothing on a dict whose
    words have the lengths of their slots. *)
Lemma consistent_returns (assignment : Assignment) :
  offsets_in_range cw ->
  (∀ x w, assignment !! x = Some w -> String.length w = slot_length x) ->
  ∃ b, consistent cw assignment = Ok b.
Proof.
  intros Hrange Hlen. unfold consistent. apply all_pass_returns.
  intros [x i] Hx%elem_of_map_to_list.
  destruct (decide (slot_length x ≠ String.length i)); [eauto|].
  apply all_pass_returns. intros [y j] Hy%elem_of_map_to_list.
  destruct (decide (x ≠ y)); [|eauto]. destruct (decide (i = j)); [eauto|].
  destruct (overlaps cw x y) as [[a b]|] eqn:Hov; [|eauto].
  destruct (Hrange x y a b Hov) as [Ha Hb].
  destruct (get_in_range i a) as [ci Hci]; [by rewrite (Hlen x i)|].
  destruct (get_in_range j b) as [cj Hcj]; [by rewrite (Hlen y j)|].
  apply subscript_Ok in Hci, Hcj. rewrite Hci, Hcj. simpl. eauto.
Qed.

Context (domains : Domains).

Lemma try_values_keeps_bindings recurse var values
    (entry assignment : Assignment) :
  (∀ a, keeps_bindings a (recurse a)) ->
  entry !! var = None ->
  entry ⊆ assignment ->
  keeps_bindings entry (try_values cw recurse var values assignment).
Proof.
  intros Hrec Hvar. revert assignment.
  induction values as [|value values IH]; intros assignment Hsub; simpl;
    [done|].
  assert (entry ⊆ <[var:=value]> assignment) as Hsub'
      by by apply insert_subseteq_r.
  destruct (consistent cw (<[var:=value]> assignment)) as [[]|e]; [| |done].
  - pose proof (Hrec (<[var:=value]> assignment)) as Hkeep.
    destruct (recurse (<[var:=value]> assignment)) as [r|r|e|];
      simpl in Hkeep; [| |done|done].
    + destruct (decide (r ≠ ∅)); [simpl|apply IH]; by transitivity
        (<[var:=value]> assignment).
    + apply IH. by transitivity (<[var:=value]> assignment).
  - apply IH. rewrite delete_insert_eq. apply map_subseteq_spec.
    intros x w Hx. destruct (decide (x = var)) as [->|Hne]; [congruence|].
    rewrite lookup_delete_ne by done.
    by apply (proj1 (map_subseteq_spec _ _) Hsub).
Qed.

Lemma backtrack_keeps_bindings depth (assignment : Assignment) :
  keeps_bindings assignment (backtrack cw domains depth assignment).
Proof.
  revert assignment. induction depth as [|depth IH]; intros assignment; simpl;
    [done|].
  destruct (assignment_complete cw assignment); [simpl; reflexivity|].
  destruct (select_unassigned_variable cw domains assignment)
    as [[var|]|e] eqn:Hsel; [|done|done].
  apply select_unassigned_variable_Some in Hsel as [_ Hvar].
  destruct (order_domain_values cw domains var assignment) as [values|e];
    [|done].
  apply try_values_keeps_bindings; [done| |done].
  by apply not_elem_of_dom.
Qed.

Lemma try_values_leaves_drawn recurse var values (assignment : Assignment) :
  (∀ a, drawn_from cw domains a -> leaves_drawn cw domains (recurse a)) ->
  var ∈ variables cw ->
  (∀ value, value ∈ values ->
     ∃ d : gset string, domains !! var = Some d ∧ value ∈ d) ->
  drawn_from cw domains assignment ->
  leaves_drawn cw domains (try_values cw recurse var values assignment).
Proof.
  intros Hrec Hvar. revert assignment.
  induction values as [|value values IH]; intros assignment Hvalues Hdrawn;
    simpl; [done|].
  assert (drawn_from cw domains (<[var:=value]> assignment)) as Hdrawn'.
  { intros x w [[<- <-]|[_ Hx]]%lookup_insert_Some; [|by apply Hdrawn].
    split; [done|]. apply Hvalues. by left. }
  assert (∀ v, v ∈ values ->
            ∃ d : gset string, domains !! var = Some d ∧ v ∈ d) as Hvalues'
      by (intros v Hv; apply Hvalues; by right).
  destruct (consistent cw (<[var:=value]> assignment)) as [[]|e]; [| |done].
  - pose proof (Hrec _ Hdrawn') as Hleft.
    destruct (recurse (<[var:=value]> assignment)) as [r|r|e|];
      simpl in Hleft; [| |done|done].
    + destruct (decide (r ≠ ∅)); [done|by apply IH].
    + by apply IH.
  - apply IH; [done|]. intros x w [_ Hx]%lookup_delete_Some.
    by apply Hdrawn'.
Qed.

Lemma backtrack_leaves_drawn depth (assignment : Assignment) :
  drawn_from cw domains assignment ->
  leaves_drawn cw domains (backtrack cw domains depth assignment).
Proof.
  revert assignment. induction depth as [|depth IH]; intros assignment Hdrawn;
    simpl; [done|].
  destruct (assignment_complete cw assignment); [done|].
  destruct (select_unassigned_variable cw domains assignment)
    as [[var|]|e] eqn:Hsel; [|done|done].
  apply select_unassigned_variable_Some in Hsel as [Hvar _].
  destruct (order_domain_values cw domains var assignment) as [values|e]
    eqn:Horder; [|done].
  apply order_domain_values_sorted in Horder as (d & Hd & ->).
  apply try_values_leaves_drawn; [done|done| |done].
  intros value Hvalue%elem_of_sort_stable%elem_of_elements. by exists d.
Qed.
End search_facts.

Section search_returns.
Context (cw : Crossword) (domains : Domains).
Hypothesis in_range : offsets_in_range cw.
Hypothesis node_ok : node_consistent domains.
Hypothesis covered : covers cw domains.

Lemma order_domain_values_returns var (assignment : Assignment) :
  var ∈ variables cw ->
  ∃ values, order_domain_values cw domains var assignment = Ok values.
Proof.
  intros Hvar. unfold order_domain_values. rewrite unassigned_neighbors_spec.
  destruct (covered var Hvar) as [d Hd]. rewrite (getitem_Some _ _ _ Hd).
  simpl.
  match goal with
  | |- ∃ values, for_each ?body [] ?l ≫= _ = _ =>
      destruct (for_each_returns body l []) as [table ->]; [|simpl; eauto]
  end.
  intros word acc Hword%elem_of_elements.
  match goal with
  | |- ∃ b', for_each ?body 0 ?l ≫= _ = _ =>
      destruct (for_each_returns body l 0) as [n ->]; [|simpl; eauto]
  end.
  intros nb acc' [Hnb _]%elem_of_elements%elem_of_difference.
  apply neighbors_subseteq in Hnb. destruct (covered nb Hnb) as [dn Hdn].
  rewrite (getitem_Some _ _ _ Hdn). simpl. apply for_each_returns.
  intros word2 acc'' Hword2%elem_of_elements.
  destruct (overlaps cw var nb) as [[a b]|] eqn:Hov; [|eauto].
  destruct (in_range var nb a b Hov) as [Ha Hb].
  destruct (get_in_range word a) as [c Hc]; [by rewrite (node_ok var d)|].
  destruct (get_in_range word2 b) as [c2 Hc2]; [by rewrite (node_ok nb dn)|].
  apply subscript_Ok in Hc, Hc2. rewrite Hc, Hc2. simpl. eauto.
Qed.

Lemma drawn_from_lengths (assignment : Assignment) :
  drawn_from cw domains assignment ->
  ∀ x w, assignment !! x = Some w -> String.length w = slot_length x.
Proof.
  intros Hdrawn x w Hx. destruct (Hdrawn x w Hx) as (_ & d & Hd & Hw).
  by apply (node_ok x d).
Qed.

Lemma try_values_no_raise recurse var values (assignment : Assignment) :
  (∀ a, drawn_from cw domains a -> leaves_drawn cw domains (recurse a)) ->
  (∀ a e, drawn_from cw domains a -> recurse a ≠ Raised e) ->
  var ∈ variables cw ->
  (∀ value, value ∈ values ->
     ∃ d : gset string, domains !! var = Some d ∧ value ∈ d) ->
  drawn_from cw domains assignment ->
  ∀ e, try_values cw recurse var values assignment ≠ Raised e.
Proof.
  intros Hleft Hrec Hvar. revert assignment.
  induction values as [|value values IH]; intros assignment Hvalues Hdrawn e;
    simpl; [done|].
  assert (drawn_from cw domains (<[var:=value]> assignment)) as Hdrawn'.
  { intros x w [[<- <-]|[_ Hx]]%lookup_insert_Some; [|by apply Hdrawn].
    split; [done|]. apply Hvalues. by left. }
  assert (∀ v, v ∈ values ->
            ∃ d : gset string, domains !! var = Some d ∧ v ∈ d) as Hvalues'
      by (intros v Hv; apply Hvalues; by right).
  destruct (consistent_returns cw (<[var:=value]> assignment))
    as [b ->]; [done|by apply drawn_from_lengths|].
  destruct b.
  - pose proof (Hleft _ Hdrawn') as Hl. pose proof (Hrec _ e Hdrawn') as Hr.
    pose proof (fun e' => Hrec (<[var:=value]> assignment) e' Hdrawn') as Hr'.
    destruct (recurse (<[var:=value]> assignment)) as [r|r|e'|];
      simpl in Hl; [| | |done].
    + destruct (decide (r ≠ ∅)); [done|by apply IH].
    + by apply IH.
    + by destruct (Hr' e').
  - apply IH; [done|]. intros x w [_ Hx]%lookup_delete_Some.
    by apply Hdrawn'.
Qed.

Lemma backtrack_no_raise depth (assignment : Assignment) :
  drawn_from cw domains assignment ->
  ∀ e, backtrack cw domains depth assignment ≠ Raised e.
Proof.
  revert assignment. induction depth as [|depth IH]; intros assignment Hdrawn e;
    simpl; [done|].
  destruct (assignment_complete cw assignment) eqn:Hcomplete; [done|].
  pose proof (select_unassigned_variable_cases cw domains assignment covered)
    as Hsel.
  destruct (select_unassigned_variable cw domains assignment)
    as [[var|]|e']; [| |done].
  - destruct Hsel as (Hvar & _).
    destruct (order_domain_values_returns var assignment Hvar)
      as [values Horder].
    rewrite Horder.
    apply order_domain_values_sorted in Horder as (d & Hd & ->).
    apply try_values_no_raise;
      [|by intros a e' Ha; apply IH|done| |done].
    + intros a. apply backtrack_leaves_drawn.
    + intros value Hvalue%elem_of_sort_stable%elem_of_elements. by exists d.
  - assert (assignment_complete cw assignment = true) as Htrue
        by by apply assignment_complete_true.
    congruence.
Qed.
End search_returns.

Section solve_facts.
Context (cw : Crossword).

(** The store that [solve] searches: it is node consistent, has a domain for
    every slot, and holds only words of the vocabulary. *)
Lemma solve_store (domains1 domains2 : Domains) (b : bool) :
  enforce_node_consistency (init_domains cw) = Ok domains1 ->
  ac3 cw domains1 None = Ok (b, domains2) ->
  node_consistent domains2 ∧ covers cw domains2 ∧
  ∀ x (d : gset string), domains2 !! x = Some d -> d ⊆ words cw.
Proof.
  intros Hnode Hac3.
  destruct (enforce_node_consistency_lookup (init_domains cw))
    as (d1 & Hrun & Hlook).
  rewrite Hrun in Hnode. injection Hnode as <-.
  apply ac3_loop_shrunk in Hac3.
  assert (node_consistent d1) as Hnode1.
  { intros x d w. rewrite Hlook. unfold init_domains.
    intros (d0 & Hd0 & ->)%fmap_Some [Hlen _]%elem_of_filter. done. }
  assert (covers cw d1) as Hcov1.
  { intros x Hx. rewrite Hlook. apply fmap_is_Some. exists (words cw).
    unfold init_domains. by rewrite lookup_gset_to_gmap_Some. }
  split; [by apply (node_consistent_shrunk d1)|].
  split; [by apply (covers_shrunk cw d1)|].
  intros x d Hd. destruct Hac3 as [_ Hsub].
  destruct (Hsub x d Hd) as (d' & Hd' & Hdd'). rewrite Hlook in Hd'.
  apply fmap_Some in Hd' as (d0 & Hd0 & ->). unfold init_domains in Hd0.
  apply lookup_gset_to_gmap_Some in Hd0 as [_ <-].
  intros w Hw. apply Hdd' in Hw. by apply elem_of_filter in Hw as [_ Hw].
Qed.

Lemma consistent_empty : consistent cw ∅ = Ok true.
Proof. unfold consistent. by rewrite map_to_list_empty. Qed.

Lemma solve_found_valid (r : Assignment) :
  solve cw (init_domains cw) = Found r -> valid_solution cw r.
Proof.
  unfold solve.
  destruct (enforce_node_consistency (init_domains cw)) as [d1|e] eqn:Hnode;
    [|done].
  destruct (ac3 cw d1 None) as [[b d2]|e] eqn:Hac3; [|done].
  destruct (solve_store d1 d2 b Hnode Hac3) as (_ & _ & Hwords).
  intros Hfound.
  pose proof (backtrack_sound cw d2 _ ∅ r consistent_empty Hfound)
    as [Hcomplete Hcons].
  pose proof (backtrack_leaves_drawn cw d2 (S (size (variables cw))) ∅)
    as Hdrawn.
  rewrite Hfound in Hdrawn. simpl in Hdrawn.
  assert (drawn_from cw d2 r) as Hr
      by (apply Hdrawn; intros x w; by rewrite lookup_empty).
  apply assignment_complete_true in Hcomplete.
  apply consistent_true_inv in Hcons as (Hlen & Hdiff & Hagree).
  split; [|split; [|by split]].
  - apply set_eq. intros x. split; [|by apply Hcomplete].
    intros [w Hx]%elem_of_dom. by destruct (Hr x w Hx).
  - intros x w Hx. split; [|by apply Hlen].
    destruct (Hr x w Hx) as (_ & d & Hd & Hw). by apply (Hwords x d).
Qed.

(** Whatever [solve] returns as an assignment is a valid solution of the
    puzzle: it binds exactly the slots, each to a word of the vocabulary of
    the length of the slot, no word twice, and crossing words agree. *)
Theorem solve_returns_valid (r : Assignment) :
  solve cw (init_domains cw) = Found r -> valid_solution cw r.
Proof. apply solve_found_valid. Qed.

(** On a puzzle graph whose overlap offsets point into the slots, [solve]
    raises nothing and its search stays within the depth of one call per
    slot: it returns a valid solution or [None]. *)
Theorem solve_total :
  offsets_in_range cw ->
  (∃ r, solve cw (init_domains cw) = Found r ∧ valid_solution cw r) ∨
  (∃ left, solve cw (init_domains cw) = Failed left).
Proof.
  intros Hrange.
  destruct (enforce_node_consistency_lookup (init_domains cw))
    as (d1 & Hnode & Hlook).
  assert (node_consistent d1) as Hnode1.
  { intros x d w. rewrite Hlook.
    intros (d0 & Hd0 & ->)%fmap_Some [Hlen _]%elem_of_filter. done. }
  assert (covers cw d1) as Hcov1.
  { intros x Hx. rewrite Hlook. apply fmap_is_Some. exists (words cw).
    unfold init_domains. by rewrite lookup_gset_to_gmap_Some. }
  destruct (ac3_all_arcs_returns cw d1 Hrange Hnode1 Hcov1)
    as (b & d2 & Hac3 & Hnode2 & Hcov2).
  pose proof (solve_found_valid) as Hvalid.
  unfold solve in *. rewrite Hnode, Hac3 in *.
  pose proof (backtrack_in_depth cw d2 (S (size (variables cw))) ∅) as Hdepth.
  assert (drawn_from cw d2 ∅) as Hempty by (intros x w; by rewrite lookup_empty).
  pose proof (backtrack_no_raise cw d2 Hrange Hnode2 Hcov2
                (S (size (variables cw))) ∅ Hempty) as Hraise.
  destruct (backtrack cw d2 (S (size (variables cw))) ∅) as [r|left|e|].
  - left. exists r. split; [done|]. by apply Hvalid.
  - right. by exists left.
  - by destruct (Hraise e).
  - destruct Hdepth; [|done]. rewrite dom_empty_L, difference_empty_L. lia.
Qed.
End solve_facts.

Section backtrack_theorems.
Context (cw : Crossword) (domains : Domains).

(** A dict is complete exactly when every slot is one of its keys, whatever
    other keys it has; [backtrack] hands a complete dict back at once,
    without looking at the store or checking consistency. *)
Theorem backtrack_complete (assignment : Assignment) :
  (assignment_complete cw assignment = true ↔
   variables cw ⊆ dom assignment) ∧
  (variables cw ⊆ dom assignment ->
   ∀ depth, backtrack cw domains (S depth) assignment = Found assignment).
Proof.
  split; [apply assignment_complete_true|].
  intros Hsub%assignment_complete_true depth. simpl. by rewrite Hsub.
Qed.

(** [backtrack] never changes or removes a binding it was given: the dict
    it returns, or leaves behind on failure, extends the dict on entry. *)
Theorem backtrack_extends (depth : nat) (assignment r : Assignment) :
  backtrack cw domains depth assignment = Found r ∨
  backtrack cw domains depth assignment = Failed r ->
  assignment ⊆ r.
Proof.
  pose proof (backtrack_keeps_bindings cw domains depth assignment) as Hkeep.
  by intros [Heq|Heq]; rewrite Heq in Hkeep.
Qed.

Lemma try_values_ext recurse1 recurse2 var values
    (entry assignment : Assignment) :
  (∀ a, dom entry ∪ {[var]} ⊆ dom a -> recurse1 a = recurse2 a) ->
  (∀ a, keeps_keys a (recurse2 a)) ->
  var ∉ dom entry ->
  dom entry ⊆ dom assignment ->
  try_values cw recurse1 var values assignment
  = try_values cw recurse2 var values assignment.
Proof.
  intros Hsame Hkeys Hvar. revert assignment.
  induction values as [|value values IH]; intros assignment Hsub; simpl;
    [done|].
  destruct (consistent cw (<[var:=value]> assignment)) as [[]|e]; [| |done].
  - rewrite Hsame by set_solver.
    pose proof (Hkeys (<[var:=value]> assignment)) as Hk.
    destruct (recurse2 (<[var:=value]> assignment)) as [r|r|e|];
      simpl in Hk; [| |done|done].
    + destruct (decide (r ≠ ∅)); [done|]. apply IH. set_solver.
    + apply IH. set_solver.
  - apply IH. rewrite dom_delete, dom_insert. set_solver.
Qed.

Lemma backtrack_depth_succ depth (assignment : Assignment) :
  size (variables cw ∖ dom assignment) < depth ->
  backtrack cw domains (S depth) assignment
  = backtrack cw domains depth assignment.
Proof.
  revert assignment. induction depth as [|depth IH]; intros assignment Hsize;
    [lia|].
  change (backtrack cw domains (S (S depth)) assignment) with
    (if assignment_complete cw assignment then Found assignment
     else
       match select_unassigned_variable cw domains assignment with
       | Raise e => Raised e
       | Ok None => Raised KeyError
       | Ok (Some var) =>
           match order_domain_values cw domains var assignment with
           | Raise e => Raised e
           | Ok values =>
               try_values cw (backtrack cw domains (S depth)) var values
                          assignment
           end
       end).
  simpl. destruct (assignment_complete cw assignment); [done|].
  destruct (select_unassigned_variable cw domains assignment)
    as [[var|]|e] eqn:Hsel; [|done|done].
  apply select_unassigned_variable_Some in Hsel as [Hvar Hfree].
  destruct (order_domain_values cw domains var assignment) as [values|e];
    [|done].
  apply (try_values_ext _ _ _ _ assignment);
    [|apply backtrack_keeps_keys|done|done].
  intros a Ha. apply IH.
  assert (variables cw ∖ dom a ⊂ variables cw ∖ dom assignment) as Hlt.
  { split; [set_solver|]. intros Hsub. specialize (Hsub var). set_solver. }
  apply subset_size in Hlt. lia.
Qed.

(** The recursion of [backtrack] is at most one call deep per unassigned
    slot, plus the call that finds the dict complete: with that much depth
    the embedding is never cut off, and more depth changes nothing. *)
Theorem backtrack_depth (depth depth' : nat) (assignment : Assignment) :
  size (variables cw ∖ dom assignment) < depth ->
  depth ≤ depth' ->
  backtrack cw domains depth assignment ≠ OutOfDepth ∧
  backtrack cw domains depth' assignment
  = backtrack cw domains depth assignment.
Proof.
  intros Hsize Hle. split; [by apply backtrack_in_depth|].
  induction Hle as [|depth' Hle IH]; [done|].
  rewrite backtrack_depth_succ by lia. exact IH.
Qed.

(** When an unassigned slot has an empty domain, [backtrack] returns [None]
    at once and leaves the dict as it was: the slot chosen next is one with
    the fewest candidates, so it has none. *)
Theorem backtrack_empty_domain (depth : nat) (assignment : Assignment) v :
  covers cw domains ->
  v ∈ variables cw -> v ∉ dom assignment -> domains !! v = Some ∅ ->
  backtrack cw domains (S depth) assignment = Failed assignment.
Proof.
  intros Hcov Hv Hfree Hempty. simpl.
  destruct (assignment_complete cw assignment) eqn:Hcomplete.
  { apply assignment_complete_true in Hcomplete. destruct Hfree.
    by apply Hcomplete. }
  pose proof (select_unassigned_variable_cases cw domains assignment Hcov)
    as Hsel.
  destruct (select_unassigned_variable cw domains assignment)
    as [[var|]|e]; [|destruct Hfree; by apply Hsel|done].
  destruct Hsel as (Hvar & _ & Hmin).
  destruct (Hcov var Hvar) as [d Hd].
  destruct (Hmin v d ∅ Hv Hfree Hd Hempty) as [Hsize _].
  rewrite size_empty in Hsize.
  assert (d = ∅) as -> by (apply leibniz_equiv, size_empty_inv; lia).
  unfold order_domain_values. rewrite (getitem_Some _ _ _ Hd). simpl.
  by rewrite elements_empty.
Qed.
End backtrack_theorems.

(** * The letter grid *)

Lemma for_each_app {A B} (body : B -> A -> result B) acc l1 l2 :
  for_each body acc (l1 ++ l2)
  = (acc' ← for_each body acc l1; for_each body acc' l2).
Proof.
  revert acc. induction l1 as [|a l1 IH]; intros acc; simpl; [done|].
  destruct (body acc a) as [acc'|e]; simpl; [apply IH|done].
Qed.

Lemma for_each_fmap {A B C} (f : C -> A) (body : B -> A -> result B) acc l :
  for_each body acc (f <$> l) = for_each (fun b c => body b (f c)) acc l.
Proof.
  revert acc. induction l as [|c l IH]; intros acc; csimpl; [done|].
  destruct (body acc (f c)) as [acc'|e]; simpl; [apply IH|done].
Qed.

Lemma for_each_bind {A B C} (f : C -> list A) (body : B -> A -> result B)
    acc (l : list C) :
  for_each body acc (l ≫= f)
  = for_each (fun b c => for_each body b (f c)) acc l.
Proof.
  revert acc. induction l as [|c l IH]; intros acc; csimpl; [done|].
  rewrite for_each_app.
  destruct (for_each body acc (f c)) as [acc'|e]; simpl; [apply IH|done].
Qed.

(** A loop whose body returns on every state that satisfies an invariant it
    keeps. *)
Lemma for_each_returns_inv {A B} (P : B -> Prop) (body : B -> A -> result B)
    l acc :
  P acc ->
  (∀ a b, a ∈ l -> P b -> ∃ b', body b a = Ok b' ∧ P b') ->
  ∃ r, for_each body acc l = Ok r ∧ P r.
Proof.
  revert acc. induction l as [|a l IH]; intros acc Hacc Hbody; simpl; [eauto|].
  destruct (Hbody a acc) as (b' & -> & Hb'); [by left|done|]. simpl.
  apply IH; [done|]. intros c b Hc. apply Hbody. by right.
Qed.

(** The grid of [letter_grid]: rows of cells, each blank or a letter. *)
Abbreviation Grid := (list (list (option ascii))).

(** The cell of the [k]-th letter of a slot. *)
Definition cell_of (variable : Slot) (k : nat) : nat * nat :=
  (slot_i variable +
     (if decide (slot_direction variable = DOWN) then k else 0),
   slot_j variable +
     (if decide (slot_direction variable = ACROSS) then k else 0)).

(** [letters[i][j] = c] on a list of lists. *)
Definition set_letter (letters : Grid) (i j : nat) (c : ascii) : result Grid :=
  match letters !! i with
  | Some row =>
      if decide (j < length row)
      then Ok (<[i := <[j := Some c]> row]> letters)
      else Raise IndexError
  | None => Raise IndexError
  end.

(** The body of the loop over [k]: [letters[i][j] = word[k]]. *)
Definition write_letter (letters : Grid) (w : Slot * string * nat)
  : result Grid :=
  let '(variable, word, k) := w in
  c ← subscript word k;
  set_letter letters (cell_of variable k).1 (cell_of variable k).2 c.

(** [letter_grid(assignment)]; [height] and [width] are those of the
    crossword. *)
Definition letter_grid (height width : nat) (assignment : Assignment)
  : result Grid :=
  for_each (fun letters '(variable, word) =>
      for_each (fun letters k => write_letter letters (variable, word, k))
               letters (seq 0 (String.length word)))
    (replicate height (replicate width None)) (map_to_list assignment).

(** The writes of [letter_grid] in the order in which it makes them. *)
Definition writes (assignment : Assignment) : list (Slot * string * nat) :=
  map_to_list assignment ≫=
    fun '(variable, word) =>
      (fun k => (variable, word, k)) <$> seq 0 (String.length word).

(** The cell [(i, j)] of a grid, when it has one. *)
Definition letter_at (letters : Grid) (i j : nat) : option (option ascii) :=
  letters !! i ≫= fun row => row !! j.

(** The letter last written to the cell [p] by a list of writes. *)
Definition letter_written (ws : list (Slot * string * nat)) (p : nat * nat)
  : option ascii :=
  foldl (fun o '(variable, word, k) =>
           if decide (cell_of variable k = p) then String.get k word else o)
        None ws.

Definition grid_shape (height width : nat) (letters : Grid) : Prop :=
  length letters = height ∧ Forall (fun row => length row = width) letters.

Lemma elem_of_writes (assignment : Assignment) variable word k :
  (variable, word, k) ∈ writes assignment ↔
  assignment !! variable = Some word ∧ k < String.length word.
Proof.
  unfold writes. rewrite list_elem_of_bind. split.
  - intros ([v w] & Hin & Hvw%elem_of_map_to_list).
    apply list_elem_of_fmap in Hin as (k' & [= -> -> ->] & Hk%elem_of_seq).
    split; [done|lia].
  - intros [Hv Hk]. exists (variable, word).
    rewrite elem_of_map_to_list. split; [|done].
    apply list_elem_of_fmap. exists k. split; [done|].
    apply elem_of_seq. lia.
Qed.

Lemma letter_grid_flat (height width : nat) (assignment : Assignment) :
  letter_grid height width assignment
  = for_each write_letter (replicate height (replicate width None))
             (writes assignment).
Proof.
  unfold letter_grid, writes. rewrite for_each_bind.
  generalize (replicate height (replicate width (@None ascii))) as letters.
  generalize (map_to_list assignment) as items.
  induction items as [|[variable word] items IH]; intros letters; simpl;
    [done|].
  rewrite for_each_fmap.
  destruct (for_each _ letters (seq 0 (String.length word))) as [letters'|e];
    simpl; [apply IH|done].
Qed.

Lemma set_letter_Ok (letters letters' : Grid) height width i j c :
  grid_shape height width letters ->
  set_letter letters i j c = Ok letters' ->
  i < height ∧ j < width ∧ grid_shape height width letters' ∧
  ∀ i' j', letter_at letters' i' j'
           = if decide (i' = i ∧ j' = j)
             then Some (Some c) else letter_at letters i' j'.
Proof.
  intros [Hlen Hrows]. unfold set_letter.
  destruct (letters !! i) as [row|] eqn:Hrow; [|done].
  destruct (decide (j < length row)) as [Hj|]; [|done]. intros [= <-].
  assert (i < length letters) as Hi by by apply lookup_lt_is_Some.
  assert (length row = width) as Hw
      by apply (proj1 (Forall_lookup _ _) Hrows i row Hrow).
  split; [lia|]. split; [lia|]. split.
  - split; [by rewrite length_insert|].
    apply Forall_insert; [done|]. by rewrite length_insert.
  - intros i' j'. unfold letter_at.
    destruct (decide (i' = i)) as [->|Hi'].
    + rewrite list_lookup_insert_eq by done. simpl.
      destruct (decide (j' = j)) as [->|Hj'].
      * rewrite list_lookup_insert_eq by done.
        by rewrite decide_True.
      * rewrite list_lookup_insert_ne by done. rewrite Hrow. simpl.
        by rewrite decide_False by (by intros [_ ?]).
    + rewrite list_lookup_insert_ne by done.
      by rewrite decide_False by (by intros [? _]).
Qed.

Lemma set_letter_returns (letters : Grid) height width i j c :
  grid_shape height width letters -> i < height -> j < width ->
  ∃ letters', set_letter letters i j c = Ok letters'.
Proof.
  intros [Hlen Hrows] Hi Hj. unfold set_letter.
  destruct (lookup_lt_is_Some_2 letters i) as [row Hrow]; [lia|].
  rewrite Hrow.
  assert (length row = width) as Hw
      by apply (proj1 (Forall_lookup _ _) Hrows i row Hrow).
  rewrite decide_True by lia. eauto.
Qed.

Lemma letter_written_snoc ws variable word k p :
  letter_written (ws ++ [(variable, word, k)]) p
  = if decide (cell_of variable k = p) then String.get k word
    else letter_written ws p.
Proof. unfold letter_written. by rewrite foldl_snoc. Qed.

Lemma letter_written_Some ws p c :
  letter_written ws p = Some c ->
  ∃ variable word k,
    (variable, word, k) ∈ ws ∧ cell_of variable k = p ∧
    String.get k word = Some c.
Proof.
  induction ws as [|[[variable word] k] ws IH] using rev_ind; [done|].
  rewrite letter_written_snoc.
  destruct (decide (cell_of variable k = p)) as [Hp|Hp].
  - intros Hc. exists variable, word, k. split; [|done].
    apply elem_of_app. right. by left.
  - intros (v & w & k' & Hin & Hrest)%IH. exists v, w, k'.
    split; [|done]. apply elem_of_app. by left.
Qed.

Lemma letter_written_covered ws p variable word k :
  (∀ v w k', (v, w, k') ∈ ws -> k' < String.length w) ->
  (variable, word, k) ∈ ws -> cell_of variable k = p ->
  is_Some (letter_written ws p).
Proof.
  induction ws as [|[[v w] k'] ws IH] using rev_ind;
    [by intros _ ?%elem_of_nil|].
  intros Hlen Hin Hp. rewrite letter_written_snoc.
  destruct (decide (cell_of v k' = p)) as [Hp'|Hp'].
  - destruct (get_in_range w k') as [c ->]; [|done].
    apply (Hlen v w k'). apply elem_of_app. right. by left.
  - apply IH; [|  |done].
    + intros v' w' k'' Hin'. apply (Hlen v' w' k''). apply elem_of_app.
      by left.
    + apply elem_of_app in Hin as [Hin|Hin%list_elem_of_singleton]; [done|].
      injection Hin as -> -> ->. contradiction.
Qed.

(** What the grid holds after a list of writes. *)
Lemma write_letters_spec (height width : nat) ws (letters : Grid) :
  for_each write_letter (replicate height (replicate width None)) ws
  = Ok letters ->
  grid_shape height width letters ∧
  (∀ variable word k, (variable, word, k) ∈ ws ->
     (cell_of variable k).1 < height ∧ (cell_of variable k).2 < width) ∧
  ∀ i j, i < height -> j < width ->
    letter_at letters i j = Some (letter_written ws (i, j)).
Proof.
  intros Hrun.
  apply (for_each_invariant
           (fun pre letters =>
              grid_shape height width letters ∧
              (∀ variable word k, (variable, word, k) ∈ pre ->
                 (cell_of variable k).1 < height ∧
                 (cell_of variable k).2 < width) ∧
              ∀ i j, i < height -> j < width ->
                letter_at letters i j = Some (letter_written pre (i, j)))
           _ _ _ _ Hrun).
  - split; [|split].
    + split; [apply length_replicate|].
      apply Forall_replicate, length_replicate.
    + by intros v w k ?%elem_of_nil.
    + intros i j Hi Hj. unfold letter_at.
      rewrite lookup_replicate_2 by done. simpl.
      by rewrite lookup_replicate_2.
  - intros pre [[variable word] k] g g' _ (Hshape & Hbounds & Hcells) Hbody.
    unfold write_letter in Hbody.
    apply bind_Ok in Hbody as (c & Hc%subscript_Ok & Hset).
    apply (set_letter_Ok _ _ height width) in Hset
      as (Hi & Hj & Hshape' & Hcells'); [|done].
    split; [done|]. split.
    + intros v w k' [Hin|Hin%list_elem_of_singleton]%elem_of_app;
        [by apply (Hbounds v w k')|].
      by injection Hin as -> -> ->.
    + intros i j Hi' Hj'. rewrite Hcells', letter_written_snoc.
      destruct (decide (cell_of variable k = (i, j))) as [Hp|Hp].
      * rewrite decide_True by by rewrite Hp. by rewrite Hc.
      * rewrite decide_False; [by apply Hcells|].
        intros [-> ->]. apply Hp. by destruct (cell_of variable k).
Qed.

Lemma write_letters_returns (height width : nat) ws :
  (∀ variable word k, (variable, word, k) ∈ ws ->
     k < String.length word ∧
     (cell_of variable k).1 < height ∧ (cell_of variable k).2 < width) ->
  ∃ letters,
    for_each write_letter (replicate height (replicate width None)) ws
    = Ok letters.
Proof.
  intros Hfit.
  destruct (for_each_returns_inv (grid_shape height width) write_letter ws
              (replicate height (replicate width None)))
    as (letters & Hrun & _); [| |eauto].
  - split; [apply length_replicate|].
    apply Forall_replicate, length_replicate.
  - intros [[variable word] k] g Hin Hshape.
    destruct (Hfit variable word k Hin) as (Hk & Hi & Hj). simpl.
    destruct (get_in_range word k Hk) as [c Hc%subscript_Ok]. rewrite Hc.
    simpl.
    destruct (set_letter_returns g height width (cell_of variable k).1
                (cell_of variable k).2 c Hshape Hi Hj) as [g' Hg'].
    exists g'. split; [done|].
    by apply (set_letter_Ok _ _ height width) in Hg' as (_ & _ & Hs & _).
Qed.

(** [letter_grid] returns exactly when every letter of every assigned word
    falls inside the grid; otherwise the list assignment raises
    [IndexError]. *)
Theorem letter_grid_returns (height width : nat) (assignment : Assignment) :
  (∃ letters, letter_grid height width assignment = Ok letters) ↔
  ∀ variable word k,
    assignment !! variable = Some word -> k < String.length word ->
    (cell_of variable k).1 < height ∧ (cell_of variable k).2 < width.
Proof.
  rewrite letter_grid_flat. split.
  - intros [letters Hrun] variable word k Hv Hk.
    apply write_letters_spec in Hrun as (_ & Hbounds & _).
    apply (Hbounds variable word k). by apply elem_of_writes.
  - intros Hfit. apply write_letters_returns.
    intros variable word k [Hv Hk]%elem_of_writes. split; [done|].
    by apply (Hfit variable word k).
Qed.

(** The grid that [letter_grid] returns has [height] rows of [width] cells.
    A cell holds a letter only if some assigned word puts that letter
    there, and every cell that an assigned word covers holds a letter; when
    the words that cover a cell agree on its letter, the cell holds the
    letter of each of them. *)
Theorem letter_grid_cells (height width : nat) (assignment : Assignment)
    (letters : Grid) :
  letter_grid height width assignment = Ok letters ->
  length letters = height ∧
  Forall (fun row => length row = width) letters ∧
  ∀ i j, i < height -> j < width ->
    ∃ o, letter_at letters i j = Some o ∧
      (∀ c, o = Some c ->
         ∃ variable word k,
           assignment !! variable = Some word ∧
           cell_of variable k = (i, j) ∧ String.get k word = Some c) ∧
      (∀ variable word k,
         assignment !! variable = Some word -> k < String.length word ->
         cell_of variable k = (i, j) -> is_Some o) ∧
      ((∀ v1 w1 k1 v2 w2 k2,
          assignment !! v1 = Some w1 -> assignment !! v2 = Some w2 ->
          cell_of v1 k1 = (i, j) -> cell_of v2 k2 = (i, j) ->
          k1 < String.length w1 -> k2 < String.length w2 ->
          String.get k1 w1 = String.get k2 w2) ->
       ∀ variable word k,
         assignment !! variable = Some word -> k < String.length word ->
         cell_of variable k = (i, j) -> o = String.get k word).
Proof.
  rewrite letter_grid_flat. intros Hrun.
  apply write_letters_spec in Hrun as ([Hlen Hrows] & _ & Hcells).
  split; [done|]. split; [done|]. intros i j Hi Hj.
  exists (letter_written (writes assignment) (i, j)).
  split; [by apply Hcells|].
  assert (∀ v w k', (v, w, k') ∈ writes assignment -> k' < String.length w)
    as Hlens by (by intros v w k' [_ Hk]%elem_of_writes).
  split; [|split].
  - intros c (variable & word & k & [Hv Hk]%elem_of_writes & Hp & Hc)
             %letter_written_Some.
    by exists variable, word, k.
  - intros variable word k Hv Hk Hp.
    apply (letter_written_covered _ _ variable word k); [done| |done].
    by apply elem_of_writes.
  - intros Hagree variable word k Hv Hk Hp.
    destruct (letter_written_covered (writes assignment) (i, j)
                variable word k) as [c Hc]; [done|by apply elem_of_writes
                                            |done|].
    rewrite Hc.
    apply letter_written_Some in Hc
      as (v & w & k' & [Hv' Hk']%elem_of_writes & Hp' & Hc).
    rewrite <- Hc. by apply (Hagree v w k' variable word k).
Qed.

(** * The closure that ac3 computes, and the store of a new creator *)

(** Every domain of [part] lies within the domain of the same slot in
    [domains]. *)
Definition substore (part domains : Domains) : Prop :=
  ∀ x (s : gset string), part !! x = Some s ->
    ∃ d : gset string, domains !! x = Some d ∧ s ⊆ d.

Section closure.
Context (cw : Crossword) (part : Domains).
Hypothesis part_consistent :
  ∀ x y, x ∈ variables cw -> y ∈ variables cw -> x ≠ y ->
         arc_consistent cw part x y.

Lemma revise_keeps_part (domains domains' : Domains) x y revised :
  x ∈ variables cw -> y ∈ variables cw -> x ≠ y ->
  substore part domains ->
  revise cw domains x y = Ok (revised, domains') ->
  substore part domains'.
Proof.
  intros Hx Hy Hxy Hsub
    [(-> & -> & _)|(-> & a & b & dx & remove & Hov & Hdx & _ & -> & Hrem)]
    %revise_Ok; [done|].
  intros z s Hz. destruct (Hsub z s Hz) as (d & Hd & Hsd).
  destruct (decide (z = x)) as [->|Hzx].
  - exists (dx ∖ remove). rewrite lookup_insert_eq. split; [done|].
    rewrite Hdx in Hd. injection Hd as <-.
    intros i Hi. apply elem_of_difference. split; [by apply Hsd|].
    intros Hr. destruct (Hrem i) as [Hunsup _].
    destruct (Hunsup Hr) as [_ Hns]. apply Hns.
    destruct (part_consistent x y Hx Hy Hxy a b s i Hov Hz Hi)
      as (sy & j & Hsy & Hj & Hrest).
    destruct (Hsub y sy Hsy) as (dy & Hdy & Hsydy).
    exists dy, j. split; [done|]. split; [by apply Hsydy|done].
  - exists d. by rewrite lookup_insert_ne.
Qed.

(** [ac3] over all arcs removes nothing from an arc-consistent part of the
    store: whatever it returns, a store within the given one whose arcs
    between different slots are all consistent is still within the store it
    leaves.  With the soundness of [ac3] this makes the store it leaves the
    largest arc-consistent store within the given one. *)
Theorem ac3_keeps_consistent_part (domains domains' : Domains) (b : bool) :
  substore part domains ->
  ac3 cw domains None = Ok (b, domains') ->
  substore part domains'.
Proof.
  intros Hsub. unfold ac3. revert b domains'.
  apply (ac3_loop_invariant cw
           (fun st => (∀ x y, (x, y) ∈ st.2 ->
                         x ∈ variables cw ∧ y ∈ variables cw ∧ x ≠ y) ∧
                      substore part st.1)
           (fun r => ∀ b d, r = Ok (b, d) -> substore part d)).
  - intros [d q] [d' q'] [Hq Hd] Hiter. simpl in *.
    pose proof (ac3_iteration_cases cw d q) as Hcases.
    rewrite Hiter in Hcases.
    destruct Hcases as (x & y & rest & revised & -> & Hrev & Hq').
    destruct (Hq x y) as (Hx & Hy & Hxy); [by left|]. split.
    + intros u v Huv.
      destruct Hq' as [[_ ->]|(_ & -> & _)]; [apply Hq; by right|].
      apply elem_of_app in Huv as [Huv|Huv]; [apply Hq; by right|].
      apply list_elem_of_fmap in Huv as (z & [= -> ->] & Hz).
      apply elem_of_elements, elem_of_difference in Hz as [Hz _].
      apply elem_of_neighbors in Hz as (Hzv & Hzx & _). done.
    + by apply (revise_keeps_part d d' x y revised).
  - intros [d q] r [Hq Hd] Hiter b d' ->. simpl in *.
    pose proof (ac3_iteration_cases cw d q) as Hcases.
    rewrite Hiter in Hcases. destruct b.
    + by destruct Hcases as [_ ->].
    + destruct Hcases as (x & y & rest & -> & Hrev & _).
      destruct (Hq x y) as (Hx & Hy & Hxy); [by left|].
      by apply (revise_keeps_part d d' x y true).
  - split; [|done]. simpl. intros x y (Hx & Hy)%elem_of_initial_arcs.
    apply elem_of_neighbors in Hy as (Hy & Hyx & _). done.
Qed.
End closure.

(** Node consistency on the store of a new creator returns the store that
    gives every slot of the puzzle, and nothing else, the words of the
    vocabulary that have the length of the slot. *)
Theorem init_node_consistency (cw : Crossword) :
  ∃ domains1 : Domains,
    enforce_node_consistency (init_domains cw) = Ok domains1 ∧
    dom domains1 = variables cw ∧
    ∀ s, s ∈ variables cw ->
      domains1 !! s
      = Some (filter (fun w => String.length w = slot_length s) (words cw)).
Proof.
  destruct (enforce_node_consistency_lookup (init_domains cw))
    as (d1 & Hrun & Hlook).
  exists d1. split; [exact Hrun|]. split.
  - apply set_eq. intros s. rewrite elem_of_dom, Hlook, fmap_is_Some.
    unfold init_domains. rewrite <- elem_of_dom, dom_gset_to_gmap. done.
  - intros s Hs. rewrite Hlook. unfold init_domains.
    by rewrite (proj2 (lookup_gset_to_gmap_Some _ _ _ _) (conj Hs eq_refl)).
Qed.

(** The store that gives each slot the one word of a valid solution is arc
    consistent between different slots. *)
Lemma solution_store_consistent (cw : Crossword) (sol : Assignment) :
  valid_solution cw sol ->
  ∀ x y, x ∈ variables cw -> y ∈ variables cw -> x ≠ y ->
    arc_consistent cw ((fun w : string => ({[w]} : gset string)) <$> sol) x y.
Proof.
  intros (Hdom & _ & Hdiff & Hagree) x y Hx Hy Hxy a b dx w Hov.
  rewrite lookup_fmap. intros (wx & Hwx & ->)%fmap_Some ->%elem_of_singleton.
  assert (y ∈ dom sol) as [wy Hwy]%elem_of_dom by by rewrite Hdom.
  exists {[wy]}, wy. rewrite lookup_fmap, Hwy. split; [done|].
  split; [by apply elem_of_singleton|]. split.
  - by apply (Hdiff x y).
  - by apply (Hagree x y).
Qed.

(** * The further properties at the worked puzzles *)

Local Open Scope string_scope.
Local Open Scope nat_scope.
Local Open Scope stdpp_scope.

Lemma gate_offsets_in_range : offsets_in_range cw_gate.
Proof.
  intros x y a b. simpl. unfold gate_overlaps.
  repeat case_decide; intros Hov; try discriminate Hov;
    injection Hov as <- <-; destruct_and!; subst; simpl; lia.
Qed.

Lemma gate_node_consistent_ok : node_consistent gate_node_consistent.
Proof.
  intros x d w Hd Hw. unfold gate_node_consistent in Hd.
  repeat (apply lookup_insert_Some in Hd as [[<- <-]|[_ Hd]];
          [set_unfold in Hw; destruct_or!; by subst|]).
  apply lookup_singleton_Some in Hd as [<- <-].
  set_unfold in Hw; destruct_or!; by subst.
Qed.

Lemma gate_covers : covers cw_gate gate_node_consistent.
Proof.
  intros x Hx. simpl in Hx. set_unfold in Hx. destruct_or!; subst; by eexists.
Qed.

Lemma ac3_only_shrinks_witness :
  dom gate_arc_consistent = dom gate_node_consistent ∧
  ∀ x (d' : gset string), gate_arc_consistent !! x = Some d' ->
    ∃ d : gset string, gate_node_consistent !! x = Some d ∧ d' ⊆ d.
Proof.
  apply (ac3_only_shrinks cw_gate gate_node_consistent gate_arc_consistent
           None true).
  vm_compute. reflexivity.
Defined.

Lemma pruning_keeps_solutions_witness :
  ∃ domains1 : Domains,
    enforce_node_consistency (init_domains cw_gate) = Ok domains1 ∧
    solution_in cw_gate gate_solution domains1 ∧
    ∀ (b : bool) (domains2 : Domains),
      ac3 cw_gate domains1 None = Ok (b, domains2) ->
      b = true ∧ solution_in cw_gate gate_solution domains2.
Proof.
  apply (pruning_keeps_solutions cw_gate gate_solution). 
  exact gate_solution_valid.
Defined.

Definition gate_solution_store : Domains :=
  (fun w : string => ({[w]} : gset string)) <$> gate_solution.

Lemma ac3_keeps_consistent_part_witness :
  substore gate_solution_store gate_arc_consistent.
Proof.
  apply (ac3_keeps_consistent_part cw_gate gate_solution_store
           (solution_store_consistent cw_gate gate_solution
              gate_solution_valid)
           gate_node_consistent gate_arc_consistent true).
  - intros x s. unfold gate_solution_store, gate_solution.
    rewrite lookup_fmap. intros (w & Hw & ->)%fmap_Some.
    repeat (apply lookup_insert_Some in Hw as [[<- <-]|[_ Hw]];
            [eexists; split; [reflexivity|set_solver]|]).
    apply lookup_singleton_Some in Hw as [<- <-].
    eexists; split; [reflexivity|set_solver].
  - vm_compute. reflexivity.
Defined.

Lemma ac3_returns_witness :
  ∃ (b : bool) (domains' : Domains),
    ac3 cw_gate gate_node_consistent None = Ok (b, domains') ∧
    node_consistent domains' ∧ covers cw_gate domains'.
Proof.
  apply (ac3_returns cw_gate gate_node_consistent).
  - exact gate_offsets_in_range.
  - exact gate_node_consistent_ok.
  - exact gate_covers.
Defined.

(** The gate store after the arc from [gate_left] to [gate_top] has been
    revised. *)
Definition gate_left_revised : Domains :=
  {[ gate_left := {["ABC"; "EGH"]};
     gate_top := {["ADEA"; "AMNA"; "EIJF"]};
     gate_right := {["ABC"; "EGH"; "FKL"; "FOP"]} ]}.

Lemma revise_idempotent_witness :
  revise cw_gate gate_left_revised gate_left gate_top
  = Ok (false, gate_left_revised).
Proof.
  apply (revise_idempotent cw_gate gate_node_consistent gate_left_revised
           gate_left gate_top true).
  - discriminate.
  - vm_compute. reflexivity.
Defined.

Lemma revise_missing_slot_witness :
  revise cw_gate ∅ gate_left gate_top = Raise KeyError.
Proof.
  apply (proj1 (proj2 (revise_missing_slot cw_gate ∅ gate_left gate_top))).
  - by eexists.
  - reflexivity.
Defined.

Lemma order_domain_values_spec_witness :
  ∃ d : gset string,
    gate_arc_consistent !! gate_top = Some d ∧
    ["EIJF"; "AMNA"; "ADEA"] ≡ₚ elements d ∧
    StronglySorted
      (fun w1 w2 =>
         ruled_out cw_gate gate_arc_consistent
           (neighbors cw_gate gate_top ∖ dom gate_first_binding) gate_top w1 ≤
         ruled_out cw_gate gate_arc_consistent
           (neighbors cw_gate gate_top ∖ dom gate_first_binding) gate_top w2)
      ["EIJF"; "AMNA"; "ADEA"].
Proof.
  apply (order_domain_values_spec cw_gate gate_arc_consistent gate_top
           gate_first_binding).
  vm_compute. reflexivity.
Defined.

Lemma backtrack_complete_witness :
  backtrack cw_gate gate_arc_consistent 1 gate_solution = Found gate_solution.
Proof.
  apply (proj2 (backtrack_complete cw_gate gate_arc_consistent gate_solution)).
  by_computation.
Defined.

Lemma backtrack_extends_witness :
  gate_first_binding ⊆ <[gate_top := "ADEA"]> gate_first_binding.
Proof.
  apply (backtrack_extends cw_gate gate_arc_consistent 3).
  right. vm_compute. reflexivity.
Defined.

Lemma backtrack_depth_witness :
  backtrack cw_gate gate_arc_consistent 3 gate_first_binding ≠ OutOfDepth ∧
  backtrack cw_gate gate_arc_consistent 10 gate_first_binding
  = backtrack cw_gate gate_arc_consistent 3 gate_first_binding.
Proof.
  apply (backtrack_depth cw_gate gate_arc_consistent 3 10 gate_first_binding).
  - by_computation.
  - lia.
Defined.

Lemma backtrack_empty_domain_witness :
  backtrack cw_clash clash_emptied 1 ∅ = Failed ∅.
Proof.
  apply (backtrack_empty_domain cw_clash clash_emptied 0 ∅ gate_top).
  - intros x Hx. simpl in Hx. set_unfold in Hx.
    destruct_or!; subst; by eexists.
  - by_computation.
  - by_computation.
  - reflexivity.
Defined.

(** With just the three words of the solution, the search on the gate
    succeeds. *)
Definition cw_small : Crossword :=
  mkCrossword {[gate_left; gate_top; gate_right]} gate_overlaps
    {["EGH"; "EIJF"; "FKL"]}.

Lemma solve_returns_valid_witness : valid_solution cw_small gate_solution.
Proof.
  apply (solve_returns_valid cw_small gate_solution).
  vm_compute. reflexivity.
Defined.

Lemma solve_total_witness :
  (∃ r, solve cw_gate (init_domains cw_gate) = Found r ∧
        valid_solution cw_gate r) ∨
  (∃ left, solve cw_gate (init_domains cw_gate) = Failed left).
Proof. apply (solve_total cw_gate). exact gate_offsets_in_range. Defined.

(** The solution of the gate, written into its grid. *)
Definition gate_letters : Grid :=
  [ [Some "E"; Some "I"; Some "J"; Some "F"];
    [Some "G"; None; None; Some "K"];
    [Some "H"; None; None; Some "L"] ]%char.

Lemma letter_grid_cells_witness :
  length gate_letters = 3 ∧
  Forall (fun row => length row = 4) gate_letters.
Proof.
  pose proof (letter_grid_cells 3 4 gate_solution gate_letters) as Hcells.
  destruct Hcells as (Hrows & Hcols & _); [vm_compute; reflexivity|].
  by split.
Defined.

(** * What forces ac3 to fail *)

Local Close Scope string_scope.

Section forced_empty.
Context (cw : Crossword).

Lemma ac3_loop_consistent (domains domains' : Domains) :
  overlaps_symmetric cw ->
  ac3_loop cw (domains, initial_arcs cw) = Ok (true, domains') ->
  ∀ x y, x ∈ variables cw -> y ∈ neighbors cw x ->
         arc_consistent cw domains' x y.
Proof.
  intros Hsym. revert domains'.
  apply (ac3_loop_invariant cw (arcs_pending_or_consistent cw)
           (fun r => ∀ d, r = Ok (true, d) ->
              ∀ x y, x ∈ variables cw -> y ∈ neighbors cw x ->
                     arc_consistent cw d x y)).
  - intros st st' Hinv Hiter. by apply (ac3_iteration_preserves cw st).
  - intros [d q] r Hinv Hiter d' ->. simpl in *.
    pose proof (ac3_iteration_cases cw d q) as Hcases.
    rewrite Hiter in Hcases. destruct Hcases as [-> ->].
    intros x y Hx Hy. destruct (Hinv x y Hx Hy) as [Hin|Hcons]; [|done].
    by apply elem_of_nil in Hin.
  - intros x y Hx Hy. left. simpl. by apply elem_of_initial_arcs.
Qed.

Lemma ac3_loop_true_none_emptied (domains domains' : Domains) arcs :
  ac3_loop cw (domains, arcs) = Ok (true, domains') ->
  ∀ x (d : gset string), domains !! x = Some d -> d ≠ ∅ ->
    ∃ d' : gset string, domains' !! x = Some d' ∧ d' ≠ ∅.
Proof.
  revert domains'.
  apply (ac3_loop_invariant cw (none_emptied domains)
           (fun r => ∀ d', r = Ok (true, d') ->
              ∀ x (d : gset string), domains !! x = Some d -> d ≠ ∅ ->
                ∃ d0 : gset string, d' !! x = Some d0 ∧ d0 ≠ ∅)).
  - intros st st'. apply ac3_iteration_none_emptied.
  - intros [d q] r [Hfull _] Hiter d' ->. simpl in *.
    pose proof (ac3_iteration_cases cw d q) as Hcases.
    rewrite Hiter in Hcases. destruct Hcases as [_ ->]. exact Hfull.
  - split; simpl; [|by eauto]. intros x d0 Hd0 Hne. eauto.
Qed.

(** When the crossing constraints leave no way to give every slot a
    non-empty domain, [ac3] says so.  On a puzzle graph with symmetric
    overlap records and a store that has a non-empty domain for every slot:
    if no store within the given one is arc consistent on every arc of the
    graph with a non-empty domain for every slot, then [ac3] over all arcs,
    whenever it returns, returns [False]. *)
Theorem ac3_detects_forced_empty (domains domains' : Domains) (b : bool) :
  overlaps_symmetric cw ->
  (∀ x, x ∈ variables cw ->
     ∃ d : gset string, domains !! x = Some d ∧ d ≠ ∅) ->
  (∀ part : Domains,
     substore part domains ->
     (∀ x, x ∈ variables cw ->
        ∃ s : gset string, part !! x = Some s ∧ s ≠ ∅) ->
     (∀ x y, x ∈ variables cw -> y ∈ neighbors cw x ->
             arc_consistent cw part x y) ->
     False) ->
  ac3 cw domains None = Ok (b, domains') ->
  b = false.
Proof.
  intros Hsym Hfull Hforced Hrun. destruct b; [|done]. exfalso.
  apply (Hforced domains').
  - apply ac3_loop_shrunk in Hrun as [_ Hsub]. exact Hsub.
  - intros x Hx. destruct (Hfull x Hx) as (d & Hd & Hne).
    by apply (ac3_loop_true_none_emptied domains domains' _ Hrun x d).
  - by apply (ac3_loop_consistent domains).
Qed.
End forced_empty.

Local Open Scope string_scope.
Local Open Scope nat_scope.
Local Open Scope stdpp_scope.

Lemma ac3_detects_forced_empty_witness : false = false.
Proof.
  apply (ac3_detects_forced_empty cw_clash clash_node_consistent
           clash_emptied false).
  - intros x y. simpl. unfold gate_overlaps.
    repeat case_decide; try reflexivity; exfalso; naive_solver.
  - intros x Hx. simpl in Hx. set_unfold in Hx.
    destruct_or!; subst; (eexists; split; [reflexivity|]);
      intros Hemp; apply (f_equal size) in Hemp; vm_compute in Hemp;
      discriminate Hemp.
  - intros part Hsub Hfull Hcons.
    destruct (Hfull gate_top) as (s & Hs & Hne); [by_computation|].
    apply set_choose_L in Hne as [w Hw].
    destruct (Hcons gate_top gate_left) with (a := 0) (b := 0) (dx := s) (w := w)
      as (sl & j & Hsl & Hj & _ & c & Hc & Hcj);
      [by_computation|by_computation|reflexivity|done|done|].
    destruct (Hsub gate_top s Hs) as (d & Hd & Hsd).
    destruct (Hsub gate_left sl Hsl) as (dl & Hdl & Hsldl).
    injection Hd as <-. injection Hdl as <-.
    apply Hsd, elem_of_singleton in Hw as ->.
    apply Hsldl, elem_of_singleton in Hj as ->.
    vm_compute in Hc, Hcj. congruence.
  - vm_compute. reflexivity.
Defined.
